(** * A counting semaphore over a SharedArrayBuffer

    Shallow embedding of the class [Semaphore] of [Semaphore.ts], together
    with the fragment of the JavaScript run time it relies on: array
    buffers, [DataView.setInt32], [Int32Array] views and the [Atomics]
    operations [load], [compareExchange], [wait], [waitAsync] and [notify].

    Conventions of the model.
    - The JavaScript numbers that occur here are integers and are modelled
      by [Z]; a call without argument is the call with [num = 1].  The cell
      is 32 bits wide: every value written to it goes through [ToInt32], as
      the typed-array and [DataView] writes of the language prescribe.
    - The source adds and subtracts its numbers as IEEE doubles.  Every
      integer of magnitude at most [2^53] is a double, and a sum or a
      difference of two such integers is computed exactly when it has
      magnitude at most [2^53] itself; comparisons are always exact.  In
      that range the sums of the model are the sums of the code.  A 32-bit
      cell value and operands that are [small] stay in it, and so does
      every value of a system that keeps the invariant [tidy].
    - Typed-array element access uses the byte order of the host, which is
      little-endian on the engines the library targets.
    - Buffers are objects.  A heap maps addresses to buffers and a view
      holds the address of its buffer, so that several [Semaphore] objects
      can wrap the very same four bytes.
    - A method body is cut into its atomic actions (one access to the cell,
      or one update of the object).  A system is a heap and a list of
      execution contexts, each with one [Semaphore] object; a scheduler
      interleaves the atomic actions of the contexts in any order.  A
      context runs its synchronous code without interruption by its own
      parked [acquireAsync] activations, as the event loop does. *)

From Stdlib Require Import ZArith Lia Bool List.
From Stdlib Require Import Strings.Byte.
From stdpp Require Import base list.

Local Open Scope Z_scope.

(** ** Signed 32-bit integers *)

Definition INT32_MIN : Z := - 2 ^ 31.
Definition INT32_MAX : Z := 2 ^ 31 - 1.

Definition is_int32 (z : Z) : Prop := INT32_MIN <= z <= INT32_MAX.

(** The abstract operation [ToInt32] of ECMAScript, on integers. *)
Definition ToInt32 (z : Z) : Z := (z + 2 ^ 31) mod 2 ^ 32 - 2 ^ 31.

(** ** Bytes *)

Definition byte_of_Z (z : Z) : byte :=
  match Byte.of_N (Z.to_N (z mod 256)) with
  | Some b => b
  | None => x00
  end.

Definition Z_of_byte (b : byte) : Z := Z.of_N (Byte.to_N b).

(** The four bytes of the two's complement representation of [ToInt32 v],
    least significant first. *)
Definition int32_bytes_le (v : Z) : list byte :=
  let u := v mod 2 ^ 32 in
  [ byte_of_Z u; byte_of_Z (u / 2 ^ 8); byte_of_Z (u / 2 ^ 16); byte_of_Z (u / 2 ^ 24) ].

(** The signed value of four bytes given least significant first. *)
Definition int32_of_bytes_le (b0 b1 b2 b3 : byte) : Z :=
  ToInt32 (Z_of_byte b0 + 2 ^ 8 * Z_of_byte b1 + 2 ^ 16 * Z_of_byte b2
           + 2 ^ 24 * Z_of_byte b3).

(** ** Numbers

    Operands of magnitude at most [2^52].  The sum and the difference of
    two of them, or of one of them and a 32-bit value, have magnitude at
    most [2^53]: the doubles of the source compute them exactly. *)
Definition small (z : Z) : Prop := - 2 ^ 52 <= z <= 2 ^ 52.

(** ** Array buffers, the heap and views *)

(** An [ArrayBuffer] ([shared = false]) or a [SharedArrayBuffer]
    ([shared = true]). *)
Record ArrayBuffer := mkBuffer { shared : bool; data : list byte }.

(** Buffers are objects: the heap maps addresses (positions) to buffers. *)
Abbreviation Heap := (list ArrayBuffer).

Module Int32Array.
Record t := mk { buffer : nat; byteOffset : nat; length : nat }.
End Int32Array.

(** Byte [i] of buffer [b]; the engine never reads outside a buffer, the
    default only makes the function total. *)
Definition byte_at (h : Heap) (b : nat) (i : nat) : byte :=
  match h !! b with
  | Some buf => match data buf !! i with Some x => x | None => x00 end
  | None => x00
  end.

(** Overwrite the bytes of buffer [b] from position [i] on. *)
Fixpoint poke (bs : list byte) (i : nat) (new : list byte) : list byte :=
  match new with
  | [] => bs
  | x :: new' => poke (<[i := x]> bs) (S i) new'
  end.

Definition write_bytes (h : Heap) (b : nat) (i : nat) (new : list byte) : Heap :=
  match h !! b with
  | Some buf => <[b := mkBuffer (shared buf) (poke (data buf) i new)]> h
  | None => h
  end.

(** Element [idx] of the view, read in host (little-endian) order. *)
Definition element_offset (ta : Int32Array.t) (idx : nat) : nat :=
  (Int32Array.byteOffset ta + 4 * idx)%nat.

Definition get_element (h : Heap) (ta : Int32Array.t) (idx : nat) : Z :=
  let o := element_offset ta idx in
  let b := Int32Array.buffer ta in
  int32_of_bytes_le (byte_at h b o) (byte_at h b (o + 1)) (byte_at h b (o + 2))
                    (byte_at h b (o + 3)).

Definition set_element (h : Heap) (ta : Int32Array.t) (idx : nat) (v : Z) : Heap :=
  write_bytes h (Int32Array.buffer ta) (element_offset ta idx) (int32_bytes_le v).

(** A view is valid in a heap when its buffer exists and holds all of the
    view's elements (an engine invariant for every live typed array). *)
Definition valid_view (h : Heap) (ta : Int32Array.t) : Prop :=
  exists buf, h !! Int32Array.buffer ta = Some buf /\
    (Int32Array.byteOffset ta + 4 * Int32Array.length ta <= List.length (data buf))%nat.

(** [new SharedArrayBuffer(n)]: a fresh zero-filled shared buffer. *)
Definition new_SharedArrayBuffer (n : nat) (h : Heap) : nat * Heap :=
  (List.length h, h ++ [mkBuffer true (repeat x00 n)]).

(** [new DataView(buf).setInt32(byteOffset, value, littleEndian)]. *)
Definition DataView_setInt32 (h : Heap) (buf : nat) (byteOffset : nat) (value : Z)
    (littleEndian : bool) : Heap :=
  write_bytes h buf byteOffset
    (if littleEndian then int32_bytes_le value else rev (int32_bytes_le value)).

(** [new Int32Array(buf)]: the view of the whole buffer. *)
Definition new_Int32Array (h : Heap) (buf : nat) : Int32Array.t :=
  let n := match h !! buf with Some b => List.length (data b) | None => 0%nat end in
  Int32Array.mk buf 0 (n / 4).

(** [x.buffer instanceof SharedArrayBuffer]. *)
Definition buffer_is_shared (h : Heap) (ta : Int32Array.t) : bool :=
  match h !! Int32Array.buffer ta with
  | Some buf => shared buf
  | None => false
  end.

(** ** Atomics on an [Int32Array] *)

Module Atomics.
Definition load (h : Heap) (ta : Int32Array.t) (idx : nat) : Z :=
  get_element h ta idx.

(** Returns the value found; stores [replacement] when that value is the
    expected one.  Both arguments are converted with [ToInt32]. *)
Definition compareExchange (h : Heap) (ta : Int32Array.t) (idx : nat)
    (expected replacement : Z) : Z * Heap :=
  let old := get_element h ta idx in
  if old =? ToInt32 expected
  then (old, set_element h ta idx replacement)
  else (old, h).
End Atomics.

(** ** The class [Semaphore] *)

(** The four [throw] statements of the class. *)
Inductive Thrown :=
| InvalidBackingStore (* TypeError: ... is not a shared typed array *)
| InvalidLength       (* Error: ... does not have length 1 *)
| InvalidArgument     (* Error: num may not be equal to or less than zero *)
| OverRelease.        (* Error: Amount to release is greater than the amount acquired *)

Record Semaphore := mkSemaphore {
  _acquiredPermits : Z;
  _int32Array : Int32Array.t
}.

(** [new Semaphore(int32Array)]; the heap is threaded through so that its
    being left alone is a statement about the code. *)
Definition constructor (int32Array : Int32Array.t) (h : Heap)
    : (Thrown + Semaphore) * Heap :=
  if negb (buffer_is_shared h int32Array) then (inl InvalidBackingStore, h)
  else if negb (Int32Array.length int32Array =? 1)%nat then (inl InvalidLength, h)
  else (inr (mkSemaphore 0 int32Array), h).

Definition acquiredPermits (this : Semaphore) : Z := _acquiredPermits this.

Definition availablePermits (h : Heap) (this : Semaphore) : Z :=
  Atomics.load h (_int32Array this) 0.

Definition buffer (this : Semaphore) : nat := Int32Array.buffer (_int32Array this).

Definition fromCapacity (permits : Z) (h : Heap) : (Thrown + Semaphore) * Heap :=
  let '(sab, h1) := new_SharedArrayBuffer 4 h in
  let h2 := DataView_setInt32 h1 sab 0 permits true in
  constructor (new_Int32Array h2 sab) h2.

(** *** The method bodies as program points

    A method activation is at one of the following points; every point is
    one atomic action on the shared cell or on the object.  The arguments
    are the live local variables. *)
Inductive Frame :=
| Idle
  (* acquire *)
| AcquireLoad (num : Z)                (* const available = Atomics.load(..) *)
| AcquireWait (num available : Z)      (* Atomics.wait(.., 0, available) is called *)
| AcquireBlocked (num : Z)             (* the thread sleeps inside Atomics.wait *)
| AcquireCas (num available : Z)       (* Atomics.compareExchange(..) === available *)
| AcquireAdd (num : Z)                 (* this._acquiredPermits += num; break *)
  (* release *)
| ReleaseLoad (num : Z)
| ReleaseCas (num available : Z)
| ReleaseSub (num : Z)                 (* this._acquiredPermits -= num *)
| ReleaseNotify (num : Z)              (* Atomics.notify(.., 0); break *)
  (* acquireAsync *)
| AsyncLoad (num : Z)
| AsyncWait (num available : Z)        (* await Atomics.waitAsync(..).value *)
| AsyncCas (num available : Z)
| AsyncAdd (num : Z).

Inductive Method := Acquire | Release | AcquireAsync.

(** Method entry: the statements before the loop. *)
Definition acquire (num : Z) (this : Semaphore) : Thrown + Frame :=
  if num <=? 0 then inl InvalidArgument else inr (AcquireLoad num).

Definition release (num : Z) (this : Semaphore) : Thrown + Frame :=
  if num >? _acquiredPermits this then inl OverRelease else inr (ReleaseLoad num).

Definition acquireAsync (num : Z) (this : Semaphore) : Thrown + Frame :=
  inr (AsyncLoad num).

Definition enter (m : Method) : Z -> Semaphore -> Thrown + Frame :=
  match m with
  | Acquire => acquire
  | Release => release
  | AcquireAsync => acquireAsync
  end.

(** An [acquireAsync] activation parked at its [await].  It is [ready] when
    the awaited value has settled: at once for the string "not-equal", after
    a notification for the promise of a real wait. *)
Record Suspended := mkSuspended { s_num : Z; s_ready : bool }.

(** An execution context (a worker or the main thread) owning one
    [Semaphore] object: the object, the activation that is executing and
    the parked [acquireAsync] activations. *)
Record Context := mkContext {
  this : Semaphore;
  running : Frame;
  suspended : list Suspended
}.

Definition goto (p : Frame) (c : Context) : Context :=
  mkContext (this c) p (suspended c).

(** [this._acquiredPermits += d]: the sum of the code when the count and
    [d] are [small]. *)
Definition add_permits (d : Z) (c : Context) : Context :=
  mkContext (mkSemaphore (_acquiredPermits (this c) + d) (_int32Array (this c)))
            (running c) (suspended c).

Definition park (k : Suspended) (c : Context) : Context :=
  mkContext (this c) Idle (suspended c ++ [k]).

(** What the surroundings see of one atomic action. *)
Inductive Effect :=
| Tau
| Ret (m : Method) (num : Z)          (* the method returns, or its promise resolves *)
| NotifyRet (num : Z).                (* release: notify all waiters, then return *)

(** Whether [Atomics.wait] or [Atomics.waitAsync] on value [v] really waits. *)
Definition must_wait (h : Heap) (ta : Int32Array.t) (v : Z) : bool :=
  Atomics.load h ta 0 =? ToInt32 v.

(** One atomic action of the executing activation of [c].  [None]: nothing
    is executing, or the thread sleeps in [Atomics.wait].  The replacement
    values [available - num] and [available + num] are those of the code
    when [num] is [small] ([available] is a 32-bit value). *)
Definition advance (c : Context) (h : Heap) : option (Context * Heap * Effect) :=
  let ta := _int32Array (this c) in
  match running c with
  | Idle => None
  | AcquireLoad num =>
      let available := Atomics.load h ta 0 in
      if available <? num
      then Some (goto (AcquireWait num available) c, h, Tau)
      else Some (goto (AcquireCas num available) c, h, Tau)
  | AcquireWait num available =>
      if must_wait h ta available
      then Some (goto (AcquireBlocked num) c, h, Tau)
      else Some (goto (AcquireLoad num) c, h, Tau)
  | AcquireBlocked _ => None
  | AcquireCas num available =>
      let '(old, h') := Atomics.compareExchange h ta 0 available (available - num) in
      if old =? available
      then Some (goto (AcquireAdd num) c, h', Tau)
      else Some (goto (AcquireLoad num) c, h', Tau)
  | AcquireAdd num =>
      Some (goto Idle (add_permits num c), h, Ret Acquire num)
  | ReleaseLoad num =>
      let available := Atomics.load h ta 0 in
      Some (goto (ReleaseCas num available) c, h, Tau)
  | ReleaseCas num available =>
      let '(old, h') := Atomics.compareExchange h ta 0 available (available + num) in
      if old =? available
      then Some (goto (ReleaseSub num) c, h', Tau)
      else Some (goto (ReleaseLoad num) c, h', Tau)
  | ReleaseSub num =>
      Some (goto (ReleaseNotify num) (add_permits (- num) c), h, Tau)
  | ReleaseNotify num =>
      Some (goto Idle c, h, NotifyRet num)
  | AsyncLoad num =>
      let available := Atomics.load h ta 0 in
      if available <? num
      then Some (goto (AsyncWait num available) c, h, Tau)
      else Some (goto (AsyncCas num available) c, h, Tau)
  | AsyncWait num available =>
      Some (park (mkSuspended num (negb (must_wait h ta available))) c, h, Tau)
  | AsyncCas num available =>
      let '(old, h') := Atomics.compareExchange h ta 0 available (available - num) in
      if old =? available
      then Some (goto (AsyncAdd num) c, h', Tau)
      else Some (goto (AsyncLoad num) c, h', Tau)
  | AsyncAdd num =>
      Some (goto Idle (add_permits num c), h, Ret AcquireAsync num)
  end.

(** *** Several contexts around one heap *)

Record System := mkSystem { heap : Heap; contexts : list Context }.

(** Two views address the same cell. *)
Definition same_cell (ta tb : Int32Array.t) : bool :=
  (Int32Array.buffer ta =? Int32Array.buffer tb)%nat
  && (Int32Array.byteOffset ta =? Int32Array.byteOffset tb)%nat.

(** [Atomics.notify(ta, 0)] with no count wakes every waiter on the cell:
    threads asleep in [Atomics.wait] and promises of [Atomics.waitAsync]. *)
Definition wake (ta : Int32Array.t) (c : Context) : Context :=
  if same_cell ta (_int32Array (this c))
  then mkContext (this c)
         (match running c with AcquireBlocked num => AcquireLoad num | p => p end)
         ((fun k => mkSuspended (s_num k) true) <$> suspended c)
  else c.

(** The scheduler's choices. *)
Inductive Action :=
| Call (i : nat) (m : Method) (num : Z)   (* idle context [i] calls a method *)
| Advance (i : nat)                       (* context [i] performs its next atomic action *)
| Resume (i k : nat).                     (* idle context [i] resumes parked activation [k] *)

(** The calls that ended, in the order in which they ended. *)
Inductive Event :=
| Threw (i : nat) (m : Method) (num : Z) (e : Thrown)
| Returned (i : nat) (m : Method) (num : Z).

Definition effect_events (i : nat) (eff : Effect) : list Event :=
  match eff with
  | Tau => []
  | Ret m num => [Returned i m num]
  | NotifyRet num => [Returned i Release num]
  end.

(** The contexts after an action with effect [eff] on the cell [ta]. *)
Definition delivered (eff : Effect) (ta : Int32Array.t) (cs : list Context) : list Context :=
  match eff with
  | NotifyRet _ => wake ta <$> cs
  | _ => cs
  end.

Definition is_idle (p : Frame) : bool :=
  match p with Idle => true | _ => false end.

Definition do_action (s : System) (a : Action) : option (System * list Event) :=
  match a with
  | Call i m num =>
      match contexts s !! i with
      | Some c =>
          if is_idle (running c) then
            match enter m num (this c) with
            | inl e => Some (s, [Threw i m num e])
            | inr p => Some (mkSystem (heap s) (<[i := goto p c]> (contexts s)), [])
            end
          else None
      | None => None
      end
  | Advance i =>
      match contexts s !! i with
      | Some c =>
          match advance c (heap s) with
          | Some (c', h', eff) =>
              Some (mkSystem h' (delivered eff (_int32Array (this c)) (<[i := c']> (contexts s))),
                    effect_events i eff)
          | None => None
          end
      | None => None
      end
  | Resume i k =>
      match contexts s !! i with
      | Some c =>
          if is_idle (running c) then
            match suspended c !! k with
            | Some (mkSuspended num true) =>
                Some (mkSystem (heap s)
                        (<[i := mkContext (this c) (AsyncLoad num) (delete k (suspended c))]>
                           (contexts s)), [])
            | _ => None
            end
          else None
      | None => None
      end
  end.

(** A schedule is run from left to right; [None] when some choice is not
    enabled. *)
Fixpoint run (s : System) (acts : list Action) : option (System * list Event) :=
  match acts with
  | [] => Some (s, [])
  | a :: acts' =>
      match do_action s a with
      | Some (s1, ev1) =>
          match run s1 acts' with
          | Some (s2, ev2) => Some (s2, ev1 ++ ev2)
          | None => None
          end
      | None => None
      end
  end.

(** Context [i] calls a method and is scheduled alone until the call has
    ended (thrown, returned, or handed back a pending promise).  [None]
    when the call sleeps in [Atomics.wait] or the fuel runs out. *)
Fixpoint drive (fuel : nat) (i : nat) (s : System) (tr : list Event)
    : option (System * list Event) :=
  match contexts s !! i with
  | Some c =>
      if is_idle (running c) then Some (s, tr)
      else match fuel with
           | O => None
           | S fuel' =>
               match do_action s (Advance i) with
               | Some (s', ev) => drive fuel' i s' (tr ++ ev)
               | None => None
               end
           end
  | None => None
  end.

Definition call (fuel : nat) (s : System) (i : nat) (m : Method) (num : Z)
    : option (System * list Event) :=
  match do_action s (Call i m num) with
  | Some (s', ev) => drive fuel i s' ev
  | None => None
  end.

(** *** Accounting *)

(** Permits taken minus permits given back by the calls that returned. *)
Definition amount (e : Event) : Z :=
  match e with
  | Returned _ Acquire num | Returned _ AcquireAsync num => num
  | Returned _ Release num => - num
  | Threw _ _ _ _ => 0
  end.

Definition by_context (i : nat) (e : Event) : bool :=
  match e with
  | Returned j _ _ | Threw j _ _ _ => (i =? j)%nat
  end.

Fixpoint net (tr : list Event) : Z :=
  match tr with
  | [] => 0
  | e :: tr' => amount e + net tr'
  end.

(** The same for the calls of context [i] only. *)
Fixpoint net_of (i : nat) (tr : list Event) : Z :=
  match tr with
  | [] => 0
  | e :: tr' => (if by_context i e then amount e else 0) + net_of i tr'
  end.

(** A fresh context around a semaphore object. *)
Definition fresh (sem : Semaphore) : Context := mkContext sem Idle [].

(** [fromCapacity(permits)] in one context, whose [buffer] is then posted
    to [others] further contexts, each of which wraps it with
    [new Semaphore(new Int32Array(buffer))]. *)
Definition boot (permits : Z) (others : nat) : option System :=
  match fromCapacity permits [] with
  | (inr sem, h) =>
      match constructor (new_Int32Array h (buffer sem)) h with
      | (inr sem', h') => Some (mkSystem h' (fresh sem :: repeat (fresh sem') others))
      | (inl _, _) => None
      end
  | (inl _, _) => None
  end.

(** The system that [boot] builds. *)
Definition one_cell (permits : Z) (others : nat) : System :=
  mkSystem [mkBuffer true (int32_bytes_le permits)]
    (fresh (mkSemaphore 0 (Int32Array.mk 0 0 1))
     :: repeat (fresh (mkSemaphore 0 (Int32Array.mk 0 0 1))) others).

(** The value of the cell addressed by [ta]. *)
Definition cell (ta : Int32Array.t) (s : System) : Z := Atomics.load (heap s) ta 0.

Definition quiescent (s : System) : Prop :=
  Forall (fun c => running c = Idle) (contexts s).

(** The call [m(num)] of context [i], scheduled alone with enough fuel,
    returns and leaves the cell at [value] and the object's count at
    [permits]. *)
Definition returns_with (fuel : nat) (s : System) (i : nat) (m : Method) (num : Z)
    (value permits : Z) : Prop :=
  exists s' c',
    call fuel s i m num = Some (s', [Returned i m num]) /\
    contexts s' !! i = Some c' /\ running c' = Idle /\
    availablePermits (heap s') (this c') = value /\
    acquiredPermits (this c') = permits.

(** Context [i] of [s] is [c], is not inside a call, and wraps a live cell. *)
Definition at_rest (s : System) (i : nat) (c : Context) : Prop :=
  contexts s !! i = Some c /\ running c = Idle /\
  valid_view (heap s) (_int32Array (this c)) /\
  (0 < Int32Array.length (_int32Array (this c)))%nat.

(** *** Measures used by the invariants *)

Definition total (f : Context -> Z) (cs : list Context) : Z :=
  foldr (fun c acc => f c + acc) 0 cs.

(** Every context of the system wraps the cell [ta], a live view of at
    least one element. *)
Definition sharing (ta : Int32Array.t) (s : System) : Prop :=
  valid_view (heap s) ta /\ (0 < Int32Array.length ta)%nat /\
  Forall (fun c => _int32Array (this c) = ta) (contexts s).

(** The local [available] of an activation was read from the cell. *)
Definition frame_int32 (p : Frame) : Prop :=
  match p with
  | AcquireWait _ av | AcquireCas _ av | ReleaseCas _ av
  | AsyncWait _ av | AsyncCas _ av => is_int32 av
  | _ => True
  end.

(** The amount by which an activation has already changed the cell while
    its call has not ended yet. *)
Definition inflight (c : Context) : Z :=
  match running c with
  | AcquireAdd num | AsyncAdd num => num
  | ReleaseSub num | ReleaseNotify num => - num
  | _ => 0
  end.

(** The permits a context holds, counting a compare-and-swap that has
    succeeded but is not yet booked in [_acquiredPermits]. *)
Definition holdings (c : Context) : Z :=
  _acquiredPermits (this c) +
  match running c with
  | AcquireAdd num | AsyncAdd num => num
  | ReleaseSub num => - num
  | _ => 0
  end.

(** The count of the object once the call in progress has been entered in
    the list of ended calls: [release] lowers the count before it notifies
    and returns. *)
Definition booked (c : Context) : Z :=
  _acquiredPermits (this c) +
  match running c with
  | ReleaseNotify num => num
  | _ => 0
  end.

(** What is known of the local variables at each program point when all
    calls are made with [num >= 1]. *)
Definition frame_ok (c : Context) : Prop :=
  match running c with
  | AcquireLoad num | AcquireWait num _ | AcquireBlocked num | AcquireAdd num
  | AsyncLoad num | AsyncWait num _ | AsyncAdd num => 1 <= num
  | AcquireCas num av | AsyncCas num av => 1 <= num <= av
  | ReleaseLoad num | ReleaseCas num _ => 1 <= num <= _acquiredPermits (this c)
  | Idle | ReleaseSub _ | ReleaseNotify _ => True
  end.

Definition ctx_ok (c : Context) : Prop :=
  0 <= holdings c /\ frame_ok c /\ frame_int32 (running c) /\
  Forall (fun k => 1 <= s_num k) (suspended c).

(** The invariant of a well-behaved system of capacity [cap]. *)
Definition tidy (ta : Int32Array.t) (cap : Z) (s : System) : Prop :=
  sharing ta s /\ Forall ctx_ok (contexts s) /\
  0 <= cell ta s /\ cell ta s + total holdings (contexts s) = cap /\ cap <= INT32_MAX.

(** Well-behaved calls: [num >= 1].  ([acquire] checks this itself.) *)
Definition polite (a : Action) : Prop :=
  match a with
  | Call _ Release num | Call _ AcquireAsync num => 1 <= num
  | _ => True
  end.

(** *** Notions used by the further properties *)

(** Nobody waits in this context: the thread does not sleep in
    [Atomics.wait] and every parked [acquireAsync] can be resumed. *)
Definition awake (c : Context) : Prop :=
  (forall n, running c <> AcquireBlocked n) /\
  Forall (fun k => s_ready k = true) (suspended c).


(** What the test [available < num] and the 32-bit cell tell about the
    locals of an activation that is about to swap, or has swapped. *)
Definition frame_checked (p : Frame) : Prop :=
  match p with
  | AcquireCas num av | AsyncCas num av => num <= av /\ is_int32 av
  | AcquireAdd num | AsyncAdd num => num <= INT32_MAX
  | _ => True
  end.

Definition frames_checked (s : System) : Prop :=
  Forall (fun c => frame_checked (running c)) (contexts s).

(** The amounts of the [acquire] and [acquireAsync] calls that returned
    fit in the cell. *)
Definition acquired_fits (e : Event) : Prop :=
  match e with
  | Returned _ Acquire num | Returned _ AcquireAsync num => num <= INT32_MAX
  | _ => True
  end.

(** A [release] has changed the cell and has still to notify. *)
Definition releasing (c : Context) : Prop :=
  match running c with
  | ReleaseSub _ | ReleaseNotify _ => True
  | _ => False
  end.

(** Whoever waits in context [c] asks for more than [v]. *)
Definition lacks (v : Z) (c : Context) : Prop :=
  (forall num, running c = AcquireBlocked num -> v < num) /\
  Forall (fun k => s_ready k = false -> v < s_num k) (suspended c).

(** What the guard of [acquire] and the test [available < num] tell about
    the locals of the acquiring activations. *)
Definition frame_waits (c : Context) : Prop :=
  match running c with
  | AcquireLoad num | AcquireBlocked num | AsyncLoad num => 1 <= num
  | AcquireWait num av | AsyncWait num av => 1 <= num /\ av < num /\ is_int32 av
  | AcquireCas num av | AsyncCas num av => 1 <= num <= av /\ is_int32 av
  | ReleaseCas _ av => is_int32 av
  | _ => True
  end /\
  Forall (fun k => 1 <= s_num k) (suspended c).

(** Every waiter lacks permits, unless a notification is on its way. *)
Definition no_lost_wakeup (ta : Int32Array.t) (s : System) : Prop :=
  Exists releasing (contexts s) \/ Forall (lacks (cell ta s)) (contexts s).

(** Calls of [acquireAsync] with [num >= 1]. *)
Definition asks_positive (a : Action) : Prop :=
  match a with
  | Call _ AcquireAsync num => 1 <= num
  | _ => True
  end.


(** The context that takes the step. *)
Definition actor (a : Action) : nat :=
  match a with
  | Call i _ _ | Advance i | Resume i _ => i
  end.

(** The object of the context that takes step [a] is around another buffer
    than the one of the view [tb]. *)
Definition elsewhere (tb : Int32Array.t) (s : System) (a : Action) : Prop :=
  forall c, contexts s !! actor a = Some c ->
    Int32Array.buffer (_int32Array (this c)) <> Int32Array.buffer tb.
(** ** Arithmetic of [ToInt32] *)

Lemma ToInt32_range z : is_int32 (ToInt32 z).
Proof.
  unfold is_int32, ToInt32, INT32_MIN, INT32_MAX.
  pose proof (Z.mod_pos_bound (z + 2 ^ 31) (2 ^ 32) ltac:(lia)). lia.
Qed.

Lemma ToInt32_id z : is_int32 z -> ToInt32 z = z.
Proof.
  unfold is_int32, ToInt32, INT32_MIN, INT32_MAX. intros H.
  rewrite Z.mod_small by lia. lia.
Qed.

Lemma ToInt32_congr a b : (a - b) mod 2 ^ 32 = 0 -> ToInt32 a = ToInt32 b.
Proof.
  intros H. unfold ToInt32. f_equal.
  apply Z.mod_divide in H; [|lia]. destruct H as [k Hk].
  replace (a + 2 ^ 31) with (b + 2 ^ 31 + k * 2 ^ 32) by lia.
  apply Z.mod_add. lia.
Qed.

Lemma ToInt32_spec z : exists k, ToInt32 z = z + k * 2 ^ 32.
Proof.
  exists (- ((z + 2 ^ 31) / 2 ^ 32)). unfold ToInt32.
  rewrite (Z.mod_eq (z + 2 ^ 31) (2 ^ 32)) by lia. lia.
Qed.

Lemma ToInt32_shift z k : ToInt32 (z + k * 2 ^ 32) = ToInt32 z.
Proof. apply ToInt32_congr. replace (_ - _) with (k * 2 ^ 32) by lia. apply Z.mod_mul. lia. Qed.

Lemma Z_of_byte_of_Z z : Z_of_byte (byte_of_Z z) = z mod 256.
Proof.
  unfold Z_of_byte, byte_of_Z.
  pose proof (Z.mod_pos_bound z 256 ltac:(lia)) as Hb.
  destruct (Byte.of_N (Z.to_N (z mod 256))) as [b|] eqn:E.
  - apply Byte.to_of_N in E. rewrite E. lia.
  - apply Byte.of_N_None_iff in E. lia.
Qed.

Lemma int32_roundtrip v :
  match int32_bytes_le v with
  | [b0; b1; b2; b3] => int32_of_bytes_le b0 b1 b2 b3 = ToInt32 v
  | _ => False
  end.
Proof.
  unfold int32_bytes_le, int32_of_bytes_le. cbv zeta.
  rewrite !Z_of_byte_of_Z.
  set (u := v mod 2 ^ 32).
  assert (Hu : 0 <= u < 2 ^ 32) by (apply Z.mod_pos_bound; lia).
  assert (E : u mod 256 + 2 ^ 8 * ((u / 2 ^ 8) mod 256)
              + 2 ^ 16 * ((u / 2 ^ 16) mod 256) + 2 ^ 24 * ((u / 2 ^ 24) mod 256) = u).
  { change 256 with (2 ^ 8).
    pose proof (Z.div_mod u (2 ^ 8) ltac:(lia)).
    pose proof (Z.div_mod (u / 2 ^ 8) (2 ^ 8) ltac:(lia)).
    pose proof (Z.div_mod (u / 2 ^ 8 / 2 ^ 8) (2 ^ 8) ltac:(lia)).
    assert (u / 2 ^ 16 = u / 2 ^ 8 / 2 ^ 8) as ->
      by (rewrite Z.div_div by lia; reflexivity).
    assert (u / 2 ^ 24 = u / 2 ^ 8 / 2 ^ 8 / 2 ^ 8) as ->
      by (rewrite !Z.div_div by lia; reflexivity).
    assert (u / 2 ^ 8 / 2 ^ 8 / 2 ^ 8 < 2 ^ 8).
    { rewrite !Z.div_div by lia. apply Z.div_lt_upper_bound; lia. }
    assert (0 <= u / 2 ^ 8 / 2 ^ 8 / 2 ^ 8).
    { rewrite !Z.div_div by lia. apply Z.div_pos; lia. }
    rewrite (Z.mod_small (u / 2 ^ 8 / 2 ^ 8 / 2 ^ 8)) by lia.
    lia. }
  rewrite E. subst u. apply ToInt32_congr.
  rewrite (Z.mod_eq v (2 ^ 32)) by lia.
  replace (_ - _) with ((- (v / 2 ^ 32)) * 2 ^ 32) by lia.
  apply Z.mod_mul. lia.
Qed.

(** ** Reading and writing the heap *)

Lemma poke4_lookup (bs : list byte) o b0 b1 b2 b3 :
  (o + 4 <= List.length bs)%nat ->
  poke bs o [b0; b1; b2; b3] !! o = Some b0 /\
  poke bs o [b0; b1; b2; b3] !! (o + 1)%nat = Some b1 /\
  poke bs o [b0; b1; b2; b3] !! (o + 2)%nat = Some b2 /\
  poke bs o [b0; b1; b2; b3] !! (o + 3)%nat = Some b3.
Proof.
  intros H. cbn [poke].
  replace (o + 1)%nat with (S o) by lia.
  replace (o + 2)%nat with (S (S o)) by lia.
  replace (o + 3)%nat with (S (S (S o))) by lia.
  repeat split.
  - rewrite !list_lookup_insert_ne by lia. apply list_lookup_insert_eq. lia.
  - rewrite !list_lookup_insert_ne by lia. apply list_lookup_insert_eq.
    rewrite !length_insert. lia.
  - rewrite !list_lookup_insert_ne by lia. apply list_lookup_insert_eq.
    rewrite !length_insert. lia.
  - apply list_lookup_insert_eq. rewrite !length_insert. lia.
Qed.

Lemma poke_length (new bs : list byte) o : List.length (poke bs o new) = List.length bs.
Proof.
  revert bs o. induction new as [|x new IH]; intros bs o; cbn [poke]; [reflexivity|].
  rewrite IH. apply length_insert.
Qed.

Lemma get_set_element h ta idx v :
  valid_view h ta -> (idx < Int32Array.length ta)%nat ->
  get_element (set_element h ta idx v) ta idx = ToInt32 v.
Proof.
  intros (buf & Hb & Hlen) Hidx.
  unfold get_element, set_element, write_bytes, byte_at. rewrite Hb.
  rewrite list_lookup_insert_eq by (eapply lookup_lt_Some; eauto). cbn [data].
  pose proof (int32_roundtrip v) as R.
  destruct (int32_bytes_le v) as [|b0 [|b1 [|b2 [|b3 [|]]]]]; try contradiction.
  destruct (poke4_lookup (data buf) (element_offset ta idx) b0 b1 b2 b3)
    as (E0 & E1 & E2 & E3).
  { unfold element_offset. lia. }
  rewrite E0, E1, E2, E3. exact R.
Qed.

Lemma valid_view_set_element h ta tb idx v :
  valid_view h ta -> valid_view (set_element h tb idx v) ta.
Proof.
  intros (buf & Hb & Hlen). unfold set_element, write_bytes.
  destruct (h !! Int32Array.buffer tb) as [buf'|] eqn:E; [|exists buf; auto].
  destruct (decide (Int32Array.buffer tb = Int32Array.buffer ta)) as [Heq|Hne].
  - rewrite Heq in *. exists (mkBuffer (shared buf') (poke (data buf') (element_offset tb idx) (int32_bytes_le v))).
    split.
    + apply list_lookup_insert_eq. eapply lookup_lt_Some; eauto.
    + cbn [data]. rewrite poke_length. congruence.
  - exists buf. split; [|exact Hlen]. rewrite list_lookup_insert_ne; auto.
Qed.

Lemma get_element_int32 h ta idx : is_int32 (get_element h ta idx).
Proof. apply ToInt32_range. Qed.

Lemma load_set_element h ta v :
  valid_view h ta -> (0 < Int32Array.length ta)%nat ->
  Atomics.load (set_element h ta 0 v) ta 0 = ToInt32 v.
Proof. intros. now apply get_set_element. Qed.

Lemma compareExchange_spec h ta av new :
  is_int32 av ->
  Atomics.compareExchange h ta 0 av new =
    if Atomics.load h ta 0 =? av
    then (av, set_element h ta 0 new)
    else (Atomics.load h ta 0, h).
Proof.
  intros Hav. unfold Atomics.compareExchange, Atomics.load.
  rewrite (ToInt32_id av Hav).
  destruct (get_element h ta 0 =? av) eqn:E; [|reflexivity].
  apply Z.eqb_eq in E. now rewrite E.
Qed.

(** ** Sums over the contexts and over the ended calls *)

Lemma total_insert f cs i c c' :
  cs !! i = Some c -> total f (<[i := c']> cs) = total f cs - f c + f c'.
Proof.
  unfold total. revert i. induction cs as [|x cs IH]; intros [|i] H; try discriminate.
  - injection H as ->. cbn. lia.
  - change (<[S i := c']> (x :: cs)) with (x :: <[i := c']> cs).
    change ((x :: cs) !! S i) with (cs !! i) in H.
    cbn [foldr]. rewrite (IH i H). lia.
Qed.

Lemma total_map f g cs : (forall c, f (g c) = f c) -> total f (g <$> cs) = total f cs.
Proof.
  intros H. unfold total. induction cs as [|x cs IH]; [reflexivity|].
  cbn [fmap list_fmap foldr]. now rewrite H, IH.
Qed.

Lemma total_nonneg f cs : Forall (fun c => 0 <= f c) cs -> 0 <= total f cs.
Proof. unfold total. induction 1; cbn [foldr]; lia. Qed.

Lemma total_lookup_le f cs i c :
  Forall (fun c => 0 <= f c) cs -> cs !! i = Some c -> f c <= total f cs.
Proof.
  intros H. revert i. induction H as [|x cs Hx H IH]; intros [|i] E; try discriminate.
  - injection E as ->. pose proof (total_nonneg f cs H). unfold total in *. cbn. lia.
  - change ((x :: cs) !! S i) with (cs !! i) in E.
    specialize (IH i E). unfold total in *. cbn [foldr]. lia.
Qed.

Lemma total_zero f cs : Forall (fun c => f c = 0) cs -> total f cs = 0.
Proof.
  unfold total. induction 1 as [|c cs Hc H IH]; [reflexivity|].
  cbn [foldr]. lia.
Qed.

Lemma total_quiescent s : quiescent s -> total inflight (contexts s) = 0.
Proof.
  unfold quiescent. induction 1 as [|c cs Hc H IH]; [reflexivity|].
  unfold total in *. cbn [foldr]. rewrite IH. unfold inflight. rewrite Hc. lia.
Qed.

Lemma net_app tr1 tr2 : net (tr1 ++ tr2) = net tr1 + net tr2.
Proof. induction tr1 as [|e tr1 IH]; cbn; [reflexivity|]. rewrite IH. lia. Qed.

Lemma net_of_app i tr1 tr2 : net_of i (tr1 ++ tr2) = net_of i tr1 + net_of i tr2.
Proof. induction tr1 as [|e tr1 IH]; cbn [app net_of]; [reflexivity|]. rewrite IH. lia. Qed.

Lemma net_of_other i j eff : i <> j -> net_of i (effect_events j eff) = 0.
Proof.
  intros Hne. assert (E : (i =? j)%nat = false) by now apply Nat.eqb_neq.
  destruct eff; cbn [effect_events net_of by_context]; rewrite ?E; reflexivity.
Qed.

Lemma lookup_put (cs : list Context) i c c' :
  cs !! i = Some c -> <[i := c']> cs !! i = Some c'.
Proof. intros H. apply list_lookup_insert_eq. eapply lookup_lt_Some; eauto. Qed.

(** ** Notification changes no count *)

Lemma this_wake tb c : this (wake tb c) = this c.
Proof. unfold wake. now destruct (same_cell _ _). Qed.

Lemma handle_wake ta c : _int32Array (this (wake ta c)) = _int32Array (this c).
Proof. unfold wake. now destruct (same_cell _ _). Qed.

Lemma idle_wake tb c : running c = Idle -> running (wake tb c) = Idle.
Proof. unfold wake. intros H. destruct (same_cell _ _); [|exact H]. cbn. now rewrite H. Qed.

Lemma inflight_wake ta c : inflight (wake ta c) = inflight c.
Proof.
  unfold wake, inflight. destruct (same_cell _ _); [|reflexivity].
  cbn. now destruct (running c).
Qed.

Lemma holdings_wake tb c : holdings (wake tb c) = holdings c.
Proof.
  unfold wake, holdings. destruct (same_cell _ _); [|reflexivity].
  cbn. now destruct (running c).
Qed.

Lemma booked_wake tb c : booked (wake tb c) = booked c.
Proof.
  unfold wake, booked. destruct (same_cell _ _); [|reflexivity].
  cbn. now destruct (running c).
Qed.

Lemma frame_int32_wake ta c : frame_int32 (running c) -> frame_int32 (running (wake ta c)).
Proof.
  unfold wake. destruct (same_cell _ _); [|auto]. cbn. now destruct (running c).
Qed.

Lemma ctx_ok_wake tb c : ctx_ok c -> ctx_ok (wake tb c).
Proof.
  unfold wake. destruct (same_cell _ _); [|auto].
  intros (Hh & Hf & Hc & Hs). unfold ctx_ok, holdings, frame_ok in *.
  cbn [running this suspended].
  repeat split.
  - destruct (running c); assumption.
  - destruct (running c); assumption.
  - destruct (running c); try assumption; exact I.
  - apply Forall_fmap. eapply Forall_impl; [exact Hs|]. intros k Hk. exact Hk.
Qed.

(** Case analysis on the next atomic action of an activation; the
    compare-and-swap is replaced by its two outcomes. *)
Ltac step_frame Hadv :=
  unfold advance in Hadv;
  match type of Hadv with
  | match running ?c with _ => _ end = _ =>
      let Hr := fresh "Hr" in destruct (running c) eqn:Hr; try discriminate
  end;
  repeat match type of Hadv with
    | context [Atomics.compareExchange ?h ?ta 0 ?av ?new] =>
        rewrite (compareExchange_spec h ta av new) in Hadv by assumption
    | context [if ?b then _ else _] =>
        let E := fresh "E" in destruct b eqn:E
    | (let '(_, _) := (_, _) in _) = _ => cbn iota beta in Hadv
    | context [?x =? ?x] => rewrite (Z.eqb_refl x) in Hadv
    end.

(** ** Contexts around one cell *)

Section OneCell.
Variable ta : Int32Array.t.

Lemma sharing_lookup s i c :
  sharing ta s -> contexts s !! i = Some c -> _int32Array (this c) = ta.
Proof.
  intros (_ & _ & Hs) Hi. exact (Forall_lookup_1 _ _ _ _ Hs Hi).
Qed.

End OneCell.

(** ** The invariant of well-behaved systems *)

Section WellBehaved.
Variable ta : Int32Array.t.
Variable cap : Z.

Lemma advance_tidy c h c' h' eff :
  _int32Array (this c) = ta -> valid_view h ta -> (0 < Int32Array.length ta)%nat ->
  ctx_ok c -> 0 <= Atomics.load h ta 0 ->
  Atomics.load h ta 0 + holdings c <= INT32_MAX ->
  advance c h = Some (c', h', eff) ->
  _int32Array (this c') = ta /\ valid_view h' ta /\ ctx_ok c' /\
  0 <= Atomics.load h' ta 0 /\
  Atomics.load h' ta 0 + holdings c' = Atomics.load h ta 0 + holdings c.
Proof.
  intros Hta Hv Hl (Hh & Hf & Hc & Hs) H0 Hmax Hadv. rewrite <- Hta in *.
  pose proof (get_element_int32 h (_int32Array (this c)) 0) as Hrange.
  unfold is_int32, INT32_MIN, INT32_MAX in *.
  unfold ctx_ok, holdings, frame_ok in *.
  step_frame Hadv.
  all: try rewrite Hr in *; cbn [frame_int32] in *.
  all: injection Hadv as <- <- <-.
  all: cbn [goto park add_permits running this _int32Array suspended _acquiredPermits
         frame_int32].
  all: try rewrite load_set_element by assumption.
  all: repeat match goal with
       | E : (_ =? _) = true |- _ => apply Z.eqb_eq in E
       | E : (_ <? _) = true |- _ => apply Z.ltb_lt in E
       | E : (_ <? _) = false |- _ => apply Z.ltb_ge in E
       end.
  all: try rewrite ToInt32_id by (unfold is_int32, INT32_MIN, INT32_MAX, Atomics.load in *; lia).
  all: repeat match goal with
       | |- _ /\ _ => split
       | |- True => exact I
       | |- valid_view (set_element _ _ _ _) _ => apply valid_view_set_element
       | |- valid_view _ _ => assumption
       | |- Forall _ (_ ++ _) => apply Forall_app; split; [assumption|]
       | |- Forall _ [_] => constructor; [cbn|constructor]
       | |- Forall _ _ => assumption
       end.
  all: unfold is_int32, INT32_MIN, INT32_MAX, Atomics.load in *; try lia.
  all: try reflexivity.
Qed.

Lemma tidy_lookup s i c :
  tidy ta cap s -> contexts s !! i = Some c ->
  _int32Array (this c) = ta /\ ctx_ok c /\ cell ta s + holdings c <= INT32_MAX.
Proof.
  intros (Hsh & Hok & H0 & Hsum & Hcap) Hi. repeat split.
  - eapply sharing_lookup; eauto.
  - apply (Forall_lookup_1 _ _ _ _ Hok Hi).
  - apply (Forall_lookup_1 _ _ _ _ Hok Hi).
  - apply (Forall_lookup_1 _ _ _ _ Hok Hi).
  - apply (Forall_lookup_1 _ _ _ _ Hok Hi).
  - assert (holdings c <= total holdings (contexts s)); [|lia].
    apply (total_lookup_le holdings _ i); [|exact Hi].
    eapply Forall_impl; [exact Hok|]. intros x Hx. apply Hx.
Qed.

Lemma update_tidy s i c c' h' :
  tidy ta cap s -> contexts s !! i = Some c ->
  _int32Array (this c') = ta -> valid_view h' ta -> ctx_ok c' ->
  0 <= Atomics.load h' ta 0 ->
  Atomics.load h' ta 0 + holdings c' = Atomics.load (heap s) ta 0 + holdings c ->
  tidy ta cap (mkSystem h' (<[i := c']> (contexts s))).
Proof.
  intros ((Hv & Hl & Hs) & Hok & H0 & Hsum & Hcap) Hi Hta Hv' Hok' H0' Heq.
  unfold tidy, sharing, cell in *. cbn [heap contexts].
  repeat split; auto.
  - now apply Forall_insert.
  - now apply Forall_insert.
  - rewrite (total_insert _ _ _ _ _ Hi). lia.
Qed.

Lemma wake_all_tidy tb h cs :
  tidy ta cap (mkSystem h cs) -> tidy ta cap (mkSystem h (wake tb <$> cs)).
Proof.
  intros ((Hv & Hl & Hs) & Hok & H0 & Hsum & Hcap).
  unfold tidy, sharing, cell in *. cbn [heap contexts] in *.
  repeat split; auto.
  - apply Forall_fmap. eapply Forall_impl; [exact Hs|]. intros c Hc.
    unfold compose. now rewrite handle_wake.
  - apply Forall_fmap. eapply Forall_impl; [exact Hok|]. intros c Hc.
    unfold compose. now apply ctx_ok_wake.
  - rewrite total_map; [exact Hsum|]. intros c. apply holdings_wake.
Qed.

Lemma step_tidy s a s' ev :
  polite a -> tidy ta cap s -> do_action s a = Some (s', ev) -> tidy ta cap s'.
Proof.
  intros Hp Ht Hdo.
  assert (Hv : valid_view (heap s) ta) by apply Ht.
  assert (Hl : (0 < Int32Array.length ta)%nat) by apply Ht.
  assert (H0 : 0 <= cell ta s) by apply Ht.
  destruct a as [i m num | i | i j]; cbn [do_action] in Hdo;
    destruct (contexts s !! i) as [c|] eqn:Hi; try discriminate;
    destruct (tidy_lookup _ _ _ Ht Hi) as (Hta & Hok & Hmax).
  - destruct (is_idle (running c)) eqn:Hidle; try discriminate.
    destruct (running c) eqn:Hr; try discriminate.
    destruct (enter m num (this c)) as [e|p] eqn:He; injection Hdo as <- <-.
    + exact Ht.
    + apply (update_tidy s i c); auto.
      * destruct Hok as (Hh & Hf & Hc & Hs).
        unfold ctx_ok, holdings, frame_ok in *. rewrite Hr in Hh.
        cbn [goto running this suspended].
        destruct m; cbn in He, Hp; unfold acquire, release, acquireAsync in He;
          repeat match type of He with
            | context [if ?b then _ else _] => destruct b eqn:?
            end;
          inversion He; subst p; repeat split; auto; try exact I; lia.
      * unfold holdings. rewrite Hr. cbn [goto running this].
        destruct m; cbn in He; unfold acquire, release, acquireAsync in He;
          repeat match type of He with context [if ?b then _ else _] => destruct b end;
          inversion He; reflexivity.
  - destruct (advance c (heap s)) as [[[c' h'] eff]|] eqn:Hadv; try discriminate.
    destruct (advance_tidy c (heap s) c' h' eff Hta Hv Hl Hok H0 Hmax Hadv)
      as (Hta' & Hv' & Hok' & H0' & Heq).
    pose proof (update_tidy s i c c' h' Ht Hi Hta' Hv' Hok' H0' Heq) as Ht'.
    injection Hdo as <- <-.
    destruct eff; cbn [delivered]; auto.
    now apply wake_all_tidy.
  - destruct (is_idle (running c)) eqn:Hidle; try discriminate.
    destruct (running c) eqn:Hr; try discriminate.
    destruct (suspended c !! j) as [[n [|]]|] eqn:Hj; try discriminate.
    injection Hdo as <- <-.
    apply (update_tidy s i c); auto.
    + destruct Hok as (Hh & Hf & Hc & Hs).
      unfold ctx_ok, holdings, frame_ok in *. rewrite Hr in Hh.
      cbn [running this suspended]. repeat split; auto.
      * apply (Forall_lookup_1 _ _ _ _ Hs Hj).
      * now apply Forall_delete.
    + unfold holdings. rewrite Hr. reflexivity.
Qed.

Lemma run_tidy acts : forall s s' tr,
  Forall polite acts -> tidy ta cap s -> run s acts = Some (s', tr) -> tidy ta cap s'.
Proof.
  induction acts as [|a acts IH]; intros s s' tr Hp Ht Hrun; cbn [run] in Hrun.
  - now injection Hrun as <- <-.
  - destruct (do_action s a) as [[s1 ev1]|] eqn:Hdo; try discriminate.
    destruct (run s1 acts) as [[s2 ev2]|] eqn:Hrest; try discriminate.
    injection Hrun as <- <-.
    inversion Hp as [|? ? Hpa Hpacts]; subst.
    apply (IH s1 s2 ev2 Hpacts); [|exact Hrest].
    exact (step_tidy s a s1 ev1 Hpa Ht Hdo).
Qed.

End WellBehaved.

(** ** Construction *)

Lemma poke_zero4 b0 b1 b2 b3 :
  poke (repeat x00 4) 0 [b0; b1; b2; b3] = [b0; b1; b2; b3].
Proof. reflexivity. Qed.

Lemma fromCapacity_eq permits (h : Heap) :
  fromCapacity permits h =
    (inr (mkSemaphore 0 (Int32Array.mk (List.length h) 0 1)),
     h ++ [mkBuffer true (int32_bytes_le permits)]).
Proof.
  unfold fromCapacity, new_SharedArrayBuffer, DataView_setInt32, write_bytes.
  rewrite list_lookup_middle by reflexivity. cbn [shared data].
  rewrite insert_app_r_alt by lia. rewrite Nat.sub_diag.
  unfold int32_bytes_le at 1. cbv zeta. rewrite poke_zero4.
  change (<[0%nat := ?x]> [?y]) with [x].
  unfold new_Int32Array. rewrite list_lookup_middle by reflexivity.
  unfold constructor, buffer_is_shared. cbn [Int32Array.buffer Int32Array.length data].
  rewrite list_lookup_middle by reflexivity. reflexivity.
Qed.

Lemma fromCapacity_cell permits (h : Heap) :
  Atomics.load (h ++ [mkBuffer true (int32_bytes_le permits)])
               (Int32Array.mk (List.length h) 0 1) 0 = ToInt32 permits.
Proof.
  unfold Atomics.load, get_element, byte_at, element_offset.
  cbn [Int32Array.buffer Int32Array.byteOffset].
  rewrite list_lookup_middle by reflexivity. cbn [data].
  pose proof (int32_roundtrip permits) as R.
  destruct (int32_bytes_le permits) as [|b0 [|b1 [|b2 [|b3 [|]]]]]; try contradiction.
  exact R.
Qed.

Lemma fromCapacity_valid permits (h : Heap) :
  valid_view (h ++ [mkBuffer true (int32_bytes_le permits)])
             (Int32Array.mk (List.length h) 0 1).
Proof.
  exists (mkBuffer true (int32_bytes_le permits)). split.
  - cbn [Int32Array.buffer]. now apply list_lookup_middle.
  - cbn. lia.
Qed.

Lemma boot_eq permits others :
  boot permits others = Some (one_cell permits others).
Proof. unfold boot. rewrite fromCapacity_eq. reflexivity. Qed.

Lemma boot_sharing permits others s :
  boot permits others = Some s ->
  sharing (Int32Array.mk 0 0 1) s /\ quiescent s /\
  cell (Int32Array.mk 0 0 1) s = ToInt32 permits /\
  Forall (fun c => _acquiredPermits (this c) = 0 /\ suspended c = []) (contexts s).
Proof.
  rewrite boot_eq. intros [= <-].
  assert (F : forall P : Context -> Prop, P (fresh (mkSemaphore 0 (Int32Array.mk 0 0 1))) ->
            Forall P (fresh (mkSemaphore 0 (Int32Array.mk 0 0 1))
                      :: repeat (fresh (mkSemaphore 0 (Int32Array.mk 0 0 1))) others)).
  { intros P HP. constructor; [exact HP|]. induction others; cbn; constructor; auto. }
  repeat split.
  - apply (fromCapacity_valid permits []).
  - cbn. lia.
  - cbn [contexts]. now apply F.
  - unfold quiescent. cbn [contexts]. now apply F.
  - apply (fromCapacity_cell permits []).
  - cbn [contexts]. now apply F.
Qed.

Lemma boot_tidy permits others s :
  0 <= permits <= INT32_MAX -> boot permits others = Some s ->
  tidy (Int32Array.mk 0 0 1) permits s.
Proof.
  intros Hp Hb. destruct (boot_sharing _ _ _ Hb) as (Hsh & Hq & Hcell & Hfresh).
  assert (Hi : is_int32 permits) by (unfold is_int32, INT32_MIN, INT32_MAX in *; lia).
  rewrite (ToInt32_id _ Hi) in Hcell.
  unfold quiescent in Hq.
  pose proof (proj2 (Forall_and _ _) (conj Hq Hfresh)) as Hall. cbn beta in Hall.
  repeat split; try apply Hsh; try lia.
  - eapply Forall_impl; [exact Hall|]. intros c (Hr & Ha & Hs).
    unfold ctx_ok, holdings, frame_ok. rewrite Hr, Ha, Hs.
    repeat split; try lia. constructor.
  - rewrite Hcell. rewrite total_zero; [lia|].
    eapply Forall_impl; [exact Hall|]. intros c (Hr & Ha & Hs).
    unfold holdings. rewrite Hr, Ha. reflexivity.
Qed.

(** ** A call scheduled alone *)

Lemma drive_idle fuel i s c tr :
  contexts s !! i = Some c -> running c = Idle -> drive fuel i s tr = Some (s, tr).
Proof. intros Hi Hr. destruct fuel; cbn [drive]; rewrite Hi, Hr; reflexivity. Qed.

Lemma drive_step fuel i s c c' h' eff tr :
  contexts s !! i = Some c -> advance c (heap s) = Some (c', h', eff) ->
  drive (S fuel) i s tr =
    drive fuel i (mkSystem h' (delivered eff (_int32Array (this c)) (<[i := c']> (contexts s))))
          (tr ++ effect_events i eff).
Proof.
  intros Hi Hadv. cbn [drive do_action]. rewrite Hi, Hadv.
  destruct (running c) eqn:Hr; try reflexivity.
  unfold advance in Hadv. rewrite Hr in Hadv. discriminate.
Qed.

(** One scheduled action of context [i]: first the lookup, then the
    equation for [advance], then the rest of the run. *)
Ltac drive_one Hi :=
  erewrite drive_step; cycle 1;
  [ cbn [contexts]; first [ exact Hi | eapply lookup_put; exact Hi ]
  | cbn [heap]; unfold advance; cbn [goto running this _int32Array add_permits]
  | cbn [heap contexts delivered effect_events app goto this _int32Array running
         add_permits suspended _acquiredPermits];
    rewrite ?list_insert_insert_eq ].

Lemma ltb_ge_false a b : b <= a -> (a <? b) = false.
Proof. intros H. now apply Z.ltb_ge. Qed.

Lemma acquire_call fuel s i c num :
  at_rest s i c -> 0 < num -> num <= availablePermits (heap s) (this c) ->
  (3 <= fuel)%nat ->
  call fuel s i Acquire num =
    Some (mkSystem
            (set_element (heap s) (_int32Array (this c)) 0
               (availablePermits (heap s) (this c) - num))
            (<[i := mkContext (mkSemaphore (_acquiredPermits (this c) + num)
                                 (_int32Array (this c))) Idle (suspended c)]> (contexts s)),
          [Returned i Acquire num]).
Proof.
  intros (Hi & Hr & Hv & Hl) Hpos Hle Hfuel.
  destruct fuel as [|[|[|fuel]]]; try lia.
  unfold availablePermits in *.
  unfold call. cbn [do_action]. rewrite Hi, Hr. cbn [is_idle enter]. unfold acquire.
  destruct (num <=? 0) eqn:E; [apply Z.leb_le in E; lia|].
  drive_one Hi.
  { rewrite ltb_ge_false by exact Hle. reflexivity. }
  drive_one Hi.
  { rewrite compareExchange_spec by apply get_element_int32.
    rewrite Z.eqb_refl. cbn iota beta. rewrite Z.eqb_refl. reflexivity. }
  drive_one Hi.
  { reflexivity. }
  eapply drive_idle; [eapply lookup_put; exact Hi | reflexivity].
Qed.

Lemma acquireAsync_call fuel s i c num :
  at_rest s i c -> num <= availablePermits (heap s) (this c) -> (3 <= fuel)%nat ->
  call fuel s i AcquireAsync num =
    Some (mkSystem
            (set_element (heap s) (_int32Array (this c)) 0
               (availablePermits (heap s) (this c) - num))
            (<[i := mkContext (mkSemaphore (_acquiredPermits (this c) + num)
                                 (_int32Array (this c))) Idle (suspended c)]> (contexts s)),
          [Returned i AcquireAsync num]).
Proof.
  intros (Hi & Hr & Hv & Hl) Hle Hfuel.
  destruct fuel as [|[|[|fuel]]]; try lia.
  unfold availablePermits in *.
  unfold call. cbn [do_action]. rewrite Hi, Hr. cbn [is_idle enter]. unfold acquireAsync.
  drive_one Hi.
  { rewrite ltb_ge_false by exact Hle. reflexivity. }
  drive_one Hi.
  { rewrite compareExchange_spec by apply get_element_int32.
    rewrite Z.eqb_refl. cbn iota beta. rewrite Z.eqb_refl. reflexivity. }
  drive_one Hi.
  { reflexivity. }
  eapply drive_idle; [eapply lookup_put; exact Hi | reflexivity].
Qed.

Lemma release_call fuel s i c num :
  at_rest s i c -> num <= acquiredPermits (this c) -> (4 <= fuel)%nat ->
  call fuel s i Release num =
    Some (mkSystem
            (set_element (heap s) (_int32Array (this c)) 0
               (availablePermits (heap s) (this c) + num))
            (wake (_int32Array (this c)) <$>
               <[i := mkContext (mkSemaphore (_acquiredPermits (this c) + - num)
                                   (_int32Array (this c))) Idle (suspended c)]> (contexts s)),
          [Returned i Release num]).
Proof.
  intros (Hi & Hr & Hv & Hl) Hle Hfuel.
  destruct fuel as [|[|[|[|fuel]]]]; try lia.
  unfold availablePermits, acquiredPermits in *.
  unfold call. cbn [do_action]. rewrite Hi, Hr. cbn [is_idle enter]. unfold release.
  destruct (num >? _acquiredPermits (this c)) eqn:E; [apply Z.gtb_lt in E; lia|].
  drive_one Hi.
  { reflexivity. }
  drive_one Hi.
  { rewrite compareExchange_spec by apply get_element_int32.
    rewrite Z.eqb_refl. cbn iota beta. rewrite Z.eqb_refl. reflexivity. }
  drive_one Hi.
  { reflexivity. }
  drive_one Hi.
  { reflexivity. }
  eapply drive_idle.
  - cbn [contexts]. rewrite list_lookup_fmap.
    erewrite lookup_put by exact Hi. reflexivity.
  - unfold wake. cbn [this _int32Array]. now destruct (same_cell _ _).
Qed.

(** The three calls in terms of what the caller observes afterwards. *)
Lemma acquire_returns fuel s i c num :
  at_rest s i c -> 0 < num -> num <= availablePermits (heap s) (this c) ->
  (3 <= fuel)%nat ->
  returns_with fuel s i Acquire num
    (ToInt32 (availablePermits (heap s) (this c) - num)) (acquiredPermits (this c) + num).
Proof.
  intros Hrest Hpos Hle Hfuel. eexists _, _. split.
  { exact (acquire_call fuel s i c num Hrest Hpos Hle Hfuel). }
  destruct Hrest as (Hi & Hr & Hv & Hl). cbn [contexts heap]. split.
  { eapply lookup_put; exact Hi. }
  repeat split. unfold availablePermits. cbn [this _int32Array].
  now apply load_set_element.
Qed.

Lemma acquireAsync_returns fuel s i c num :
  at_rest s i c -> num <= availablePermits (heap s) (this c) -> (3 <= fuel)%nat ->
  returns_with fuel s i AcquireAsync num
    (ToInt32 (availablePermits (heap s) (this c) - num)) (acquiredPermits (this c) + num).
Proof.
  intros Hrest Hle Hfuel. eexists _, _. split.
  { exact (acquireAsync_call fuel s i c num Hrest Hle Hfuel). }
  destruct Hrest as (Hi & Hr & Hv & Hl). cbn [contexts heap]. split.
  { eapply lookup_put; exact Hi. }
  repeat split. unfold availablePermits. cbn [this _int32Array].
  now apply load_set_element.
Qed.

Lemma release_returns fuel s i c num :
  at_rest s i c -> num <= acquiredPermits (this c) -> (4 <= fuel)%nat ->
  returns_with fuel s i Release num
    (ToInt32 (availablePermits (heap s) (this c) + num)) (acquiredPermits (this c) - num).
Proof.
  intros Hrest Hle Hfuel. eexists _, _. split.
  { exact (release_call fuel s i c num Hrest Hle Hfuel). }
  destruct Hrest as (Hi & Hr & Hv & Hl). cbn [contexts heap]. split.
  { rewrite list_lookup_fmap. erewrite lookup_put by exact Hi. reflexivity. }
  rewrite this_wake. repeat split.
  - now apply idle_wake.
  - unfold availablePermits. cbn [this _int32Array]. now apply load_set_element.
Qed.

(** ** The count of one object against its own calls *)

Lemma advance_booked c h c' h' eff i :
  advance c h = Some (c', h', eff) ->
  booked c' = booked c + net_of i (effect_events i eff).
Proof.
  intros Hadv. unfold advance in Hadv.
  destruct (running c) eqn:Hr; try discriminate;
    repeat match type of Hadv with
      | context [Atomics.compareExchange ?h ?ta 0 ?av ?new] =>
          destruct (Atomics.compareExchange h ta 0 av new) as [old hh]
      | context [if ?b then _ else _] => destruct b
      end;
    injection Hadv as <- <- <-;
    unfold booked; rewrite Hr;
    cbn [goto park add_permits running this _acquiredPermits effect_events net_of
         by_context amount];
    rewrite ?Nat.eqb_refl; lia.
Qed.

Lemma lookup_delivered eff ta (cs : list Context) i c :
  cs !! i = Some c ->
  exists c', delivered eff ta cs !! i = Some c' /\ booked c' = booked c.
Proof.
  intros Hi. destruct eff; cbn [delivered]; try (exists c; split; [exact Hi | reflexivity]).
  exists (wake ta c). split; [|apply booked_wake].
  rewrite list_lookup_fmap, Hi. reflexivity.
Qed.

Lemma step_booked s a s' ev i c :
  do_action s a = Some (s', ev) -> contexts s !! i = Some c ->
  exists c', contexts s' !! i = Some c' /\ booked c' = booked c + net_of i ev.
Proof.
  intros Hdo Hi.
  destruct a as [j m num | j | j k]; cbn [do_action] in Hdo;
    destruct (contexts s !! j) as [cj|] eqn:Hj; try discriminate.
  - destruct (is_idle (running cj)) eqn:Hidle; try discriminate.
    destruct (running cj) eqn:Hr; try discriminate.
    destruct (enter m num (this cj)) as [e|p] eqn:He; injection Hdo as <- <-.
    + exists c. split; [exact Hi|]. cbn. destruct (i =? j)%nat; lia.
    + cbn [contexts net_of]. destruct (decide (j = i)) as [->|Hne].
      * assert (cj = c) as -> by congruence.
        exists (goto p c). split; [eapply lookup_put; exact Hi|].
        unfold booked. rewrite Hr. cbn [goto running this].
        destruct m; cbn in He; unfold acquire, release, acquireAsync in He;
          repeat match type of He with context [if ?b then _ else _] => destruct b end;
          inversion He; lia.
      * exists c. split; [|lia]. now rewrite list_lookup_insert_ne.
  - destruct (advance cj (heap s)) as [[[c' h'] eff]|] eqn:Hadv; try discriminate.
    injection Hdo as <- <-. cbn [contexts].
    destruct (decide (j = i)) as [->|Hne].
    + assert (cj = c) as -> by congruence.
      destruct (lookup_delivered eff (_int32Array (this c)) (<[i := c']> (contexts s)) i c')
        as (c2 & Hc2 & Hb); [eapply lookup_put; exact Hi|].
      exists c2. split; [exact Hc2|]. rewrite Hb.
      exact (advance_booked c (heap s) c' h' eff i Hadv).
    + destruct (lookup_delivered eff (_int32Array (this cj)) (<[j := c']> (contexts s)) i c)
        as (c2 & Hc2 & Hb); [now rewrite list_lookup_insert_ne|].
      exists c2. split; [exact Hc2|]. rewrite Hb, net_of_other by auto. lia.
  - destruct (is_idle (running cj)) eqn:Hidle; try discriminate.
    destruct (running cj) eqn:Hr; try discriminate.
    destruct (suspended cj !! k) as [[n [|]]|] eqn:Hk; try discriminate.
    injection Hdo as <- <-. cbn [contexts net_of].
    destruct (decide (j = i)) as [->|Hne].
    + assert (cj = c) as -> by congruence.
      eexists. split; [eapply lookup_put; exact Hi|].
      unfold booked. rewrite Hr. cbn. lia.
    + exists c. split; [|lia]. now rewrite list_lookup_insert_ne.
Qed.

Lemma run_booked acts : forall s s' tr i c,
  run s acts = Some (s', tr) -> contexts s !! i = Some c ->
  exists c', contexts s' !! i = Some c' /\ booked c' = booked c + net_of i tr.
Proof.
  induction acts as [|a acts IH]; intros s s' tr i c Hrun Hi; cbn [run] in Hrun.
  - injection Hrun as <- <-. exists c. split; [exact Hi | cbn; lia].
  - destruct (do_action s a) as [[s1 ev1]|] eqn:Hdo; try discriminate.
    destruct (run s1 acts) as [[s2 ev2]|] eqn:Hrest; try discriminate.
    injection Hrun as <- <-.
    destruct (step_booked s a s1 ev1 i c Hdo Hi) as (c1 & Hi1 & Hb1).
    destruct (IH s1 s2 ev2 i c1 Hrest Hi1) as (c2 & Hi2 & Hb2).
    exists c2. split; [exact Hi2|]. rewrite net_of_app. lia.
Qed.

Lemma step_length s a s' ev :
  do_action s a = Some (s', ev) ->
  List.length (contexts s') = List.length (contexts s).
Proof.
  intros Hdo. destruct a as [i m num | i | i k]; cbn [do_action] in Hdo;
    destruct (contexts s !! i) as [c|]; try discriminate.
  - destruct (is_idle (running c)); try discriminate.
    destruct (enter m num (this c)); injection Hdo as <- <-; [reflexivity|].
    cbn [contexts]. apply length_insert.
  - destruct (advance c (heap s)) as [[[c' h'] eff]|]; try discriminate.
    injection Hdo as <- <-. cbn [contexts].
    destruct eff; cbn [delivered]; rewrite ?length_fmap; apply length_insert.
  - destruct (is_idle (running c)); try discriminate.
    destruct (suspended c !! k) as [[n [|]]|]; try discriminate.
    injection Hdo as <- <-. cbn [contexts]. apply length_insert.
Qed.

Lemma run_length acts : forall s s' tr,
  run s acts = Some (s', tr) ->
  List.length (contexts s') = List.length (contexts s).
Proof.
  induction acts as [|a acts IH]; intros s s' tr Hrun; cbn [run] in Hrun.
  - now injection Hrun as <- <-.
  - destruct (do_action s a) as [[s1 ev1]|] eqn:Hdo; try discriminate.
    destruct (run s1 acts) as [[s2 ev2]|] eqn:Hrest; try discriminate.
    injection Hrun as <- <-.
    rewrite (IH _ _ _ Hrest). exact (step_length _ _ _ _ Hdo).
Qed.

(** X17.  In a system started by [fromCapacity(c)], [0 <= c <= 2^31 - 1],
    when [acquireAsync] and [release] are only called with [num >= 1], the
    count of an object between calls is the net amount of its own calls
    that returned: what it acquired minus what it released.  The calls of
    the other objects and the calls that threw do not enter. *)
Lemma acquiredPermits_accounting c others acts s' tr i ctx :
  0 <= c <= INT32_MAX -> Forall polite acts ->
  run (one_cell c others) acts = Some (s', tr) ->
  contexts s' !! i = Some ctx -> running ctx = Idle ->
  acquiredPermits (this ctx) = net_of i tr.
Proof.
  intros Hc Hp Hrun Hi Hr.
  destruct (boot_sharing c others _ (boot_eq c others)) as (_ & Hq & _ & Hfresh).
  assert (Hlt : (i < List.length (contexts (one_cell c others)))%nat).
  { rewrite <- (run_length _ _ _ _ Hrun). eapply lookup_lt_Some. exact Hi. }
  destruct (lookup_lt_is_Some_2 _ _ Hlt) as [c0 H0].
  destruct (run_booked acts _ s' tr i c0 Hrun H0) as (c2 & Hc2 & Hb).
  assert (c2 = ctx) as -> by congruence.
  destruct (Forall_lookup_1 _ _ _ _ Hfresh H0) as (Hzero & _).
  pose proof (Forall_lookup_1 _ _ _ _ Hq H0) as Hidle. cbn beta in Hidle.
  unfold booked in Hb. rewrite Hr, Hidle, Hzero in Hb. unfold acquiredPermits. lia.
Qed.

(** X18.  When [acquireAsync] and [release] are only called with [num >= 1],
    the count of an object is never negative between calls. *)
Lemma acquiredPermits_nonneg_polite c others acts s' tr i ctx :
  0 <= c <= INT32_MAX -> Forall polite acts ->
  run (one_cell c others) acts = Some (s', tr) ->
  contexts s' !! i = Some ctx -> running ctx = Idle ->
  0 <= acquiredPermits (this ctx).
Proof.
  intros Hc Hp Hrun Hi Hr.
  pose proof (boot_tidy c others _ Hc (boot_eq c others)) as Ht.
  pose proof (run_tidy _ _ acts _ _ _ Hp Ht Hrun) as (_ & Hok & _).
  destruct (Forall_lookup_1 _ _ _ _ Hok Hi) as (Hh & _).
  unfold holdings in Hh. rewrite Hr in Hh. unfold acquiredPermits. lia.
Qed.

(** ** Exact conservation in well-behaved systems *)

Lemma holdings_split c : holdings c = booked c + inflight c.
Proof. unfold holdings, booked, inflight. destruct (running c); lia. Qed.

Lemma net_of_own i eff : net_of i (effect_events i eff) = net (effect_events i eff).
Proof.
  destruct eff; cbn [effect_events net_of net by_context]; rewrite ?Nat.eqb_refl; reflexivity.
Qed.

Section Exact.
Variable ta : Int32Array.t.
Variable cap : Z.

(** A single atomic action changes the cell by what it adds to the ended
    calls and to the amounts in flight, without wrap-around. *)
Lemma step_exact s a s' ev :
  polite a -> tidy ta cap s -> do_action s a = Some (s', ev) ->
  cell ta s' + net ev + total inflight (contexts s')
  = cell ta s + total inflight (contexts s).
Proof.
  intros Hp Ht Hdo.
  assert (Hv : valid_view (heap s) ta) by apply Ht.
  assert (Hl : (0 < Int32Array.length ta)%nat) by apply Ht.
  assert (H0 : 0 <= cell ta s) by apply Ht.
  destruct a as [i m num | i | i j]; cbn [do_action] in Hdo;
    destruct (contexts s !! i) as [c|] eqn:Hi; try discriminate;
    destruct (tidy_lookup _ _ _ _ _ Ht Hi) as (Hta & Hok & Hmax).
  - destruct (is_idle (running c)) eqn:Hidle; try discriminate.
    destruct (running c) eqn:Hr; try discriminate.
    destruct (enter m num (this c)) as [e|p] eqn:He; injection Hdo as <- <-.
    + cbn. lia.
    + unfold cell. cbn [heap contexts net]. rewrite (total_insert _ _ _ _ _ Hi).
      unfold inflight. rewrite Hr. cbn [goto running].
      destruct m; cbn in He; unfold acquire, release, acquireAsync in He;
        repeat match type of He with context [if ?b then _ else _] => destruct b end;
        inversion He; lia.
  - destruct (advance c (heap s)) as [[[c' h'] eff]|] eqn:Hadv; try discriminate.
    destruct (advance_tidy ta c (heap s) c' h' eff Hta Hv Hl Hok H0 Hmax Hadv)
      as (_ & _ & _ & _ & Heq).
    pose proof (advance_booked c (heap s) c' h' eff i Hadv) as Hb.
    rewrite !holdings_split, net_of_own in *.
    injection Hdo as <- <-. unfold cell in *. cbn [heap contexts].
    replace (total inflight (delivered eff (_int32Array (this c)) (<[i := c']> (contexts s))))
      with (total inflight (<[i := c']> (contexts s))).
    + rewrite (total_insert _ _ _ _ _ Hi). lia.
    + destruct eff; cbn [delivered]; try reflexivity.
      symmetry. apply total_map. intros x. apply inflight_wake.
  - destruct (is_idle (running c)) eqn:Hidle; try discriminate.
    destruct (running c) eqn:Hr; try discriminate.
    destruct (suspended c !! j) as [[n [|]]|] eqn:Hj; try discriminate.
    injection Hdo as <- <-.
    unfold cell. cbn [heap contexts net]. rewrite (total_insert _ _ _ _ _ Hi).
    unfold inflight. rewrite Hr. cbn [running]. lia.
Qed.

Lemma run_exact acts : forall s s' tr,
  Forall polite acts -> tidy ta cap s -> run s acts = Some (s', tr) ->
  cell ta s' + net tr + total inflight (contexts s')
  = cell ta s + total inflight (contexts s).
Proof.
  induction acts as [|a acts IH]; intros s s' tr Hp Ht Hrun; cbn [run] in Hrun.
  - injection Hrun as <- <-. cbn [net]. lia.
  - destruct (do_action s a) as [[s1 ev1]|] eqn:Hdo; try discriminate.
    destruct (run s1 acts) as [[s2 ev2]|] eqn:Hrest; try discriminate.
    injection Hrun as <- <-.
    inversion Hp as [|? ? Hpa Hpacts]; subst.
    pose proof (step_exact s a s1 ev1 Hpa Ht Hdo) as H1.
    pose proof (step_tidy ta cap s a s1 ev1 Hpa Ht Hdo) as Ht1.
    pose proof (IH s1 s2 ev2 Hpacts Ht1 Hrest) as H2.
    rewrite net_app. lia.
Qed.
End Exact.

(** X19.  Conservation: in a system started by [fromCapacity(c)] whose calls
    are well-behaved, whenever no call is in progress the cell holds the
    capacity minus the net amount acquired by the calls that returned. *)
Lemma conservation c others acts s' tr :
  0 <= c <= INT32_MAX -> Forall polite acts ->
  run (one_cell c others) acts = Some (s', tr) -> quiescent s' ->
  cell (Int32Array.mk 0 0 1) s' = c - net tr.
Proof.
  intros Hc Hp Hrun Hq.
  pose proof (boot_tidy c others _ Hc (boot_eq c others)) as Ht.
  destruct (boot_sharing c others _ (boot_eq c others)) as (_ & Hq0 & Hcell & _).
  pose proof (run_exact _ _ acts _ _ _ Hp Ht Hrun) as H.
  rewrite (total_quiescent _ Hq), (total_quiescent _ Hq0), Hcell in H.
  rewrite ToInt32_id in H by (unfold is_int32, INT32_MIN, INT32_MAX in *; lia).
  lia.
Qed.

(** ** The hand-over scenario

    Capacity 1.  Context 0 acquires the permit; context 1 calls
    [acquire(1)] and goes to sleep in [Atomics.wait], where it cannot
    advance; context 0 releases and notifies; context 1 wakes up and takes
    the permit. *)
Example handover :
  let blocked := [Call 0 Acquire 1; Advance 0; Advance 0; Advance 0;
                  Call 1 Acquire 1; Advance 1; Advance 1] in
  let handed := [Call 0 Release 1; Advance 0; Advance 0; Advance 0; Advance 0;
                 Advance 1; Advance 1; Advance 1] in
  run (one_cell 1 1) (blocked ++ [Advance 1]) = None /\
  exists s',
    run (one_cell 1 1) (blocked ++ handed)
    = Some (s', [Returned 0 Acquire 1; Returned 0 Release 1; Returned 1 Acquire 1]) /\
    cell (Int32Array.mk 0 0 1) s' = 0 /\
    (acquiredPermits ∘ this) <$> contexts s' = [0; 1].
Proof.
  split; [vm_compute; reflexivity|].
  eexists. split; [vm_compute; reflexivity|].
  split; vm_compute; reflexivity.
Qed.


(** ** The properties of the specification *)

(** C7.  For every [num <= 0] the call [acquire(num)] throws the
    invalid-argument error at once; the whole system, hence the shared cell
    and the count of the object, is left as it was. *)
Theorem acquire_rejects_nonpositive fuel s i c num :
  contexts s !! i = Some c -> running c = Idle -> num <= 0 ->
  call fuel s i Acquire num = Some (s, [Threw i Acquire num InvalidArgument]).
Proof.
  intros Hi Hr Hnum. unfold call. cbn [do_action]. rewrite Hi, Hr.
  cbn [is_idle enter]. unfold acquire.
  destruct (num <=? 0) eqn:E; [|apply Z.leb_gt in E; lia].
  now apply (drive_idle fuel i s c).
Qed.

Lemma acquire_rejects_nonpositive_witness :
  call 5 (one_cell 3 1) 1 Acquire (-2)
  = Some (one_cell 3 1, [Threw 1 Acquire (-2) InvalidArgument]).
Proof.
  apply (acquire_rejects_nonpositive 5 (one_cell 3 1) 1
           (fresh (mkSemaphore 0 (Int32Array.mk 0 0 1))) (-2));
    [reflexivity | reflexivity | lia].
Defined.

(** C5.  For every [num] greater than the object's [acquiredPermits] the
    call [release(num)] throws the over-release error at once; the object
    and the shared cell are left as they were. *)
Theorem release_rejects_excess fuel s i c num :
  contexts s !! i = Some c -> running c = Idle -> num > acquiredPermits (this c) ->
  call fuel s i Release num = Some (s, [Threw i Release num OverRelease]).
Proof.
  intros Hi Hr Hnum. unfold call. cbn [do_action]. rewrite Hi, Hr.
  cbn [is_idle enter]. unfold release, acquiredPermits in *.
  destruct (num >? _acquiredPermits (this c)) eqn:E.
  - now apply (drive_idle fuel i s c).
  - rewrite Z.gtb_ltb in E. apply Z.ltb_ge in E. lia.
Qed.

Lemma release_rejects_excess_witness :
  call 5 (one_cell 3 1) 0 Release 1
  = Some (one_cell 3 1, [Threw 0 Release 1 OverRelease]).
Proof.
  apply (release_rejects_excess 5 (one_cell 3 1) 0
           (fresh (mkSemaphore 0 (Int32Array.mk 0 0 1))) 1);
    [reflexivity | reflexivity | cbn; lia].
Defined.

(** C8.  The constructor throws the backing-store error for a view whose
    buffer is not shared, the length error for a shared view whose length
    is not one; when it succeeds the new object has [acquiredPermits = 0]
    and wraps the given view.  In all cases the heap, hence the shared
    cell, is unchanged. *)
Theorem constructor_checks (int32Array : Int32Array.t) (h : Heap) :
  (buffer_is_shared h int32Array = false ->
     constructor int32Array h = (inl InvalidBackingStore, h)) /\
  (buffer_is_shared h int32Array = true -> Int32Array.length int32Array <> 1%nat ->
     constructor int32Array h = (inl InvalidLength, h)) /\
  (forall sem h', constructor int32Array h = (inr sem, h') ->
     acquiredPermits sem = 0 /\ _int32Array sem = int32Array /\ h' = h /\
     availablePermits h' sem = Atomics.load h int32Array 0).
Proof.
  unfold constructor. split; [|split].
  - intros ->. reflexivity.
  - intros -> Hlen. cbn [negb].
    destruct (Int32Array.length int32Array =? 1)%nat eqn:E; [|reflexivity].
    apply Nat.eqb_eq in E. contradiction.
  - intros sem h' H.
    destruct (buffer_is_shared h int32Array); cbn [negb] in H; try discriminate.
    destruct (Int32Array.length int32Array =? 1)%nat; cbn [negb] in H; try discriminate.
    injection H as <- <-. repeat split.
Qed.

Lemma constructor_checks_witness :
  let private := [mkBuffer false (int32_bytes_le 7)] in
  let two := [mkBuffer true (int32_bytes_le 7 ++ int32_bytes_le 7)] in
  let one := [mkBuffer true (int32_bytes_le 7)] in
  constructor (Int32Array.mk 0 0 1) private = (inl InvalidBackingStore, private) /\
  constructor (Int32Array.mk 0 0 2) two = (inl InvalidLength, two) /\
  (acquiredPermits (mkSemaphore 0 (Int32Array.mk 0 0 1)) = 0 /\
   _int32Array (mkSemaphore 0 (Int32Array.mk 0 0 1)) = Int32Array.mk 0 0 1 /\
   one = one /\
   availablePermits one (mkSemaphore 0 (Int32Array.mk 0 0 1))
   = Atomics.load one (Int32Array.mk 0 0 1) 0).
Proof.
  intros private two one. split; [|split].
  - apply (proj1 (constructor_checks (Int32Array.mk 0 0 1) private)). reflexivity.
  - apply (proj1 (proj2 (constructor_checks (Int32Array.mk 0 0 2) two)));
      [reflexivity | cbn; lia].
  - apply (proj2 (proj2 (constructor_checks (Int32Array.mk 0 0 1) one))). reflexivity.
Defined.

(** C9.  For every [permits] with [0 <= permits <= 2^31 - 1],
    [fromCapacity(permits)] returns an object whose [availablePermits] is
    [permits] and whose [acquiredPermits] is [0]: the little-endian bytes
    written through the [DataView] read back through the [Int32Array]. *)
Theorem fromCapacity_available permits (h : Heap) :
  0 <= permits <= INT32_MAX ->
  exists sem h',
    fromCapacity permits h = (inr sem, h') /\
    availablePermits h' sem = permits /\ acquiredPermits sem = 0.
Proof.
  intros Hp. eexists _, _. split; [apply fromCapacity_eq|]. split; [|reflexivity].
  unfold availablePermits. cbn [_int32Array]. rewrite fromCapacity_cell.
  apply ToInt32_id. unfold is_int32, INT32_MIN, INT32_MAX in *. lia.
Qed.

Lemma fromCapacity_available_witness :
  exists sem h',
    fromCapacity 2147483647 [] = (inr sem, h') /\
    availablePermits h' sem = 2147483647 /\ acquiredPermits sem = 0.
Proof.
  apply (fromCapacity_available 2147483647 []). unfold INT32_MAX. lia.
Defined.

(** C3.  Round trip.  Let [0 <= C <= 2^31 - 1] and take the system made by
    [fromCapacity(C)] and any number of further objects around the same
    buffer.  After any schedule of calls whose [release] and [acquireAsync]
    have [num >= 1] (an [acquire] with another [num] and a [release] of
    more than the object holds throw and change nothing), at a point where
    no call is in progress and the calls that returned have released as
    much as they acquired ([net tr = 0]), every object reads exactly [C]
    available permits. *)
Theorem round_trip C others acts s0 s' tr :
  0 <= C <= INT32_MAX -> boot C others = Some s0 -> Forall polite acts ->
  run s0 acts = Some (s', tr) ->
  quiescent s' -> net tr = 0 ->
  Forall (fun ctx => availablePermits (heap s') (this ctx) = C) (contexts s').
Proof.
  intros HC Hb Hp Hrun Hq' Hnet.
  pose proof (boot_tidy C others s0 HC Hb) as Ht.
  destruct (boot_sharing C others s0 Hb) as (_ & Hq & Hcell & _).
  pose proof (run_exact _ _ acts _ _ _ Hp Ht Hrun) as H.
  pose proof (run_tidy _ _ acts _ _ _ Hp Ht Hrun) as ((_ & _ & Hs) & _).
  rewrite (total_quiescent _ Hq'), (total_quiescent _ Hq), Hcell, Hnet in H.
  rewrite ToInt32_id in H by (unfold is_int32, INT32_MIN, INT32_MAX in *; lia).
  eapply Forall_impl; [exact Hs|]. intros ctx Hctx. cbn beta in *.
  unfold availablePermits. rewrite Hctx. unfold cell in H. lia.
Qed.

Lemma round_trip_witness :
  let s' := mkSystem [mkBuffer true (int32_bytes_le 2)]
              [fresh (mkSemaphore 0 (Int32Array.mk 0 0 1));
               fresh (mkSemaphore 0 (Int32Array.mk 0 0 1))] in
  Forall (fun ctx => availablePermits (heap s') (this ctx) = 2) (contexts s').
Proof.
  intros s'.
  apply (round_trip 2 1
           [Call 0 Acquire 2; Advance 0; Advance 0; Advance 0;
            Call 1 AcquireAsync 1; Advance 1; Advance 1;
            Call 0 Release 1; Advance 0; Advance 0; Advance 0; Advance 0;
            Resume 1 0; Advance 1; Advance 1; Advance 1;
            Call 1 Release 1; Advance 1; Advance 1; Advance 1; Advance 1;
            Call 0 Release 1; Advance 0; Advance 0; Advance 0; Advance 0]
           (one_cell 2 1) s'
           [Returned 0 Acquire 2; Returned 0 Release 1; Returned 1 AcquireAsync 1;
            Returned 1 Release 1; Returned 0 Release 1]).
  - unfold INT32_MAX. lia.
  - vm_compute. reflexivity.
  - repeat constructor; cbn; lia.
  - vm_compute. reflexivity.
  - repeat constructor.
  - reflexivity.
Defined.

(** C2, as amended.  Let [0 <= c <= 2^31 - 1].  The system made by
    [fromCapacity(c)] and any number of further objects around the same
    buffer exists, and along every schedule whose [release] and
    [acquireAsync] calls have [num >= 1] (an [acquire] with another [num]
    and a [release] of more than the object holds throw and change
    nothing), every context reads a cell value that is [>= 0]. *)
Theorem cell_never_negative c others acts :
  0 <= c <= INT32_MAX -> Forall polite acts ->
  exists s0, boot c others = Some s0 /\
    forall s' tr, run s0 acts = Some (s', tr) ->
      Forall (fun ctx => 0 <= availablePermits (heap s') (this ctx)) (contexts s').
Proof.
  intros Hc Hp. exists (one_cell c others). split; [apply boot_eq|].
  intros s' tr Hrun.
  pose proof (boot_tidy c others _ Hc (boot_eq c others)) as Ht.
  pose proof (run_tidy _ _ acts _ _ _ Hp Ht Hrun) as ((_ & _ & Hs) & _ & H0 & _).
  eapply Forall_impl; [exact Hs|]. intros ctx Hctx. cbn beta in *.
  unfold availablePermits. rewrite Hctx. exact H0.
Qed.

Lemma cell_never_negative_witness :
  exists s0, boot 1 1 = Some s0 /\
    forall s' tr,
      run s0 [Call 0 Acquire 1; Advance 0; Advance 0; Advance 0;
              Call 1 Acquire 1; Advance 1; Advance 1;
              Call 0 Release 1; Advance 0; Advance 0; Advance 0; Advance 0;
              Advance 1; Advance 1; Advance 1] = Some (s', tr) ->
      Forall (fun ctx => 0 <= availablePermits (heap s') (this ctx)) (contexts s').
Proof.
  apply (cell_never_negative 1 1).
  - unfold INT32_MAX. lia.
  - repeat constructor; cbn; lia.
Defined.

(** C2 as stated fails: a capacity [c >= 0] that does not fit in 32 bits
    is wrapped by [setInt32]; with [c = 2^31] the cell starts at [-2^31]. *)
Lemma cell_negative_counterexample :
  0 <= 2147483648 /\
  exists s0 ctx, boot 2147483648 0 = Some s0 /\ run s0 [] = Some (s0, []) /\
    contexts s0 !! 0%nat = Some ctx /\
    availablePermits (heap s0) (this ctx) = -2147483648 /\
    ~ 0 <= availablePermits (heap s0) (this ctx).
Proof.
  split; [lia|]. eexists _, _.
  split; [vm_compute; reflexivity|].
  split; [reflexivity|].
  split; [reflexivity|].
  split; [vm_compute; reflexivity|].
  vm_compute. intros H. apply H. reflexivity.
Qed.

(** C4.  Let [0 <= c <= 2^31 - 1] and take the system made by
    [fromCapacity(c)] and any number of further objects around the same
    buffer, in any state [s] that it reaches by a schedule whose [release]
    and [acquireAsync] calls have [num >= 1].  Let [n >= 1].

    A call scheduled alone in a context between calls:  [acquire(n)] and
    [acquireAsync(n)] with [n] permits available return, having lowered
    the cell by exactly [n] and raised [acquiredPermits] by exactly [n];
    [release(n)] with [n] not above [acquiredPermits] returns, having
    raised the cell by exactly [n] and lowered [acquiredPermits] by exactly
    [n].

    Under every interleaving with the calls of the other contexts, from
    [s] to any later state [s']:  the cell has changed by exactly the
    amounts of the calls that returned in between, [- n] for each
    [acquire(n)] and [acquireAsync(n)] and [+ n] for each [release(n)],
    once each, up to the swaps of the calls still in progress
    ([inflight]); and the [acquiredPermits] of an object between calls has
    changed by exactly the amounts of its own calls that returned, [+ n]
    for each acquisition and [- n] for each [release(n)]. *)
Theorem call_postconditions c others acts1 acts2 :
  0 <= c <= INT32_MAX -> Forall polite acts1 -> Forall polite acts2 ->
  exists s0, boot c others = Some s0 /\
    forall s tr1, run s0 acts1 = Some (s, tr1) ->
      (forall i ci n fuel,
         contexts s !! i = Some ci -> running ci = Idle ->
         1 <= n -> (4 <= fuel)%nat ->
         (n <= availablePermits (heap s) (this ci) ->
            returns_with fuel s i Acquire n
              (availablePermits (heap s) (this ci) - n) (acquiredPermits (this ci) + n)) /\
         (n <= availablePermits (heap s) (this ci) ->
            returns_with fuel s i AcquireAsync n
              (availablePermits (heap s) (this ci) - n) (acquiredPermits (this ci) + n)) /\
         (n <= acquiredPermits (this ci) ->
            returns_with fuel s i Release n
              (availablePermits (heap s) (this ci) + n) (acquiredPermits (this ci) - n))) /\
      (forall s' tr2 i ci ci',
         run s acts2 = Some (s', tr2) ->
         contexts s !! i = Some ci -> contexts s' !! i = Some ci' ->
         availablePermits (heap s') (this ci') + total inflight (contexts s')
         = availablePermits (heap s) (this ci) + total inflight (contexts s) - net tr2 /\
         (running ci = Idle -> running ci' = Idle ->
            acquiredPermits (this ci') = acquiredPermits (this ci) + net_of i tr2)).
Proof.
  intros Hc Hp1 Hp2. exists (one_cell c others). split; [apply boot_eq|].
  intros s tr1 Hrun1.
  pose proof (boot_tidy c others _ Hc (boot_eq c others)) as Ht0.
  pose proof (run_tidy _ _ acts1 _ _ _ Hp1 Ht0 Hrun1) as Ht.
  split.
  - intros i ci n fuel Hi Hr Hn Hfuel.
    destruct (tidy_lookup _ _ _ _ _ Ht Hi) as (Hta & _ & Hmax).
    destruct Ht as ((Hv & Hl & _) & _ & H0 & _).
    assert (Hrest : at_rest s i ci).
    { split; [exact Hi|]. split; [exact Hr|]. rewrite Hta. split; assumption. }
    unfold holdings in Hmax. rewrite Hr in Hmax.
    unfold availablePermits, acquiredPermits, cell in *. rewrite Hta.
    assert (Hint : is_int32 (Atomics.load (heap s) (Int32Array.mk 0 0 1) 0))
      by apply get_element_int32.
    split; [|split]; intros Hle.
    + rewrite <- (ToInt32_id (_ - n)) by (unfold is_int32, INT32_MIN, INT32_MAX in *; lia).
      rewrite <- Hta. apply acquire_returns; auto; unfold availablePermits; rewrite ?Hta; lia.
    + rewrite <- (ToInt32_id (_ - n)) by (unfold is_int32, INT32_MIN, INT32_MAX in *; lia).
      rewrite <- Hta. apply acquireAsync_returns; auto; unfold availablePermits; rewrite ?Hta; lia.
    + rewrite <- (ToInt32_id (_ + n)) by (unfold is_int32, INT32_MIN, INT32_MAX in *; lia).
      rewrite <- Hta. apply release_returns; auto.
  - intros s' tr2 i ci ci' Hrun2 Hi Hi'.
    pose proof (run_exact _ _ acts2 _ _ _ Hp2 Ht Hrun2) as Hex.
    pose proof (run_tidy _ _ acts2 _ _ _ Hp2 Ht Hrun2) as Ht'.
    destruct (tidy_lookup _ _ _ _ _ Ht Hi) as (Hta & _).
    destruct (tidy_lookup _ _ _ _ _ Ht' Hi') as (Hta' & _).
    unfold availablePermits. rewrite Hta, Hta'. unfold cell in Hex. split; [lia|].
    intros Hr Hr'.
    destruct (run_booked acts2 s s' tr2 i ci Hrun2 Hi) as (c2 & Hc2 & Hb).
    assert (c2 = ci') as -> by congruence.
    unfold booked in Hb. rewrite Hr, Hr' in Hb. unfold acquiredPermits. lia.
Qed.

Lemma call_postconditions_witness :
  let ta := Int32Array.mk 0 0 1 in
  let s := mkSystem [mkBuffer true (int32_bytes_le 1)]
             [mkContext (mkSemaphore 2 ta) Idle []] in
  let s' := mkSystem [mkBuffer true (int32_bytes_le 3)]
              [mkContext (mkSemaphore 0 ta) Idle []] in
  returns_with 4 s 0 Acquire 1 (1 - 1) (2 + 1) /\
  returns_with 4 s 0 AcquireAsync 1 (1 - 1) (2 + 1) /\
  returns_with 4 s 0 Release 2 (1 + 2) (2 - 2) /\
  availablePermits (heap s') (mkSemaphore 0 ta) + total inflight (contexts s')
  = availablePermits (heap s) (mkSemaphore 2 ta) + total inflight (contexts s)
    - net [Returned 0 Release 2] /\
  acquiredPermits (mkSemaphore 0 ta)
  = acquiredPermits (mkSemaphore 2 ta) + net_of 0 [Returned 0 Release 2].
Proof.
  intros ta s s'.
  assert (H3 : 0 <= 3 <= INT32_MAX) by (unfold INT32_MAX; lia).
  assert (Hp1 : Forall polite [Call 0 Acquire 2; Advance 0; Advance 0; Advance 0])
    by (repeat constructor).
  assert (Hp2 : Forall polite [Call 0 Release 2; Advance 0; Advance 0; Advance 0; Advance 0])
    by (repeat constructor; cbn; lia).
  destruct (call_postconditions 3 0 _ _ H3 Hp1 Hp2) as (s0 & Hb & Hall).
  rewrite boot_eq in Hb. injection Hb as <-.
  assert (Hrun1 : run (one_cell 3 0) [Call 0 Acquire 2; Advance 0; Advance 0; Advance 0]
                  = Some (s, [Returned 0 Acquire 2])) by (vm_compute; reflexivity).
  destruct (Hall s _ Hrun1) as (Halone & Hdelta).
  assert (Hi : contexts s !! 0%nat = Some (mkContext (mkSemaphore 2 ta) Idle []))
    by reflexivity.
  destruct (Halone 0%nat _ 1 4%nat Hi eq_refl ltac:(lia) ltac:(lia)) as (Hacq & Hasync & _).
  destruct (Halone 0%nat _ 2 4%nat Hi eq_refl ltac:(lia) ltac:(lia)) as (_ & _ & Hrel).
  assert (Hrun2 : run s [Call 0 Release 2; Advance 0; Advance 0; Advance 0; Advance 0]
                  = Some (s', [Returned 0 Release 2])) by (vm_compute; reflexivity).
  assert (Hi' : contexts s' !! 0%nat = Some (mkContext (mkSemaphore 0 ta) Idle []))
    by reflexivity.
  destruct (Hdelta s' _ 0%nat _ _ Hrun2 Hi Hi') as (Hcell & Hcount).
  split; [apply Hacq; vm_compute; discriminate|].
  split; [apply Hasync; vm_compute; discriminate|].
  split; [apply Hrel; cbn; lia|].
  split; [exact Hcell|].
  apply Hcount; reflexivity.
Defined.






(** C6.  The count of an object can become negative: on a fresh semaphore
    of capacity 0, [acquireAsync(-1)] returns with [acquiredPermits = -1]
    and one permit in the cell. *)
Theorem acquiredPermits_negative :
  exists s0 s' c',
    boot 0 0 = Some s0 /\
    call 3 s0 0 AcquireAsync (-1) = Some (s', [Returned 0 AcquireAsync (-1)]) /\
    contexts s' !! 0%nat = Some c' /\
    acquiredPermits (this c') = -1 /\
    availablePermits (heap s') (this c') = 1.
Proof.
  eexists _, _, _.
  split; [vm_compute; reflexivity|].
  split; [vm_compute; reflexivity|].
  split; [reflexivity|].
  split; vm_compute; reflexivity.
Qed.

(** ** Further properties of the code *)

(** *** Creating and re-wrapping semaphores *)

Lemma lookup_extended (h : Heap) x b buf :
  h !! b = Some buf -> (h ++ [x]) !! b = Some buf.
Proof. intros H. rewrite lookup_app_l; [exact H|]. eapply lookup_lt_Some; eauto. Qed.

Lemma get_element_extended (h : Heap) x tb idx :
  valid_view h tb -> get_element (h ++ [x]) tb idx = get_element h tb idx.
Proof.
  intros (buf & Hb & _). unfold get_element, byte_at.
  now rewrite (lookup_extended h x _ buf Hb), Hb.
Qed.

(** X1.  [fromCapacity] never throws, whatever integer it is given: the new
    object has [acquiredPermits = 0], lives in a fresh buffer added at the
    end of the heap, and reads [ToInt32 permits].  A negative capacity is
    neither rejected nor clamped: for [-2^31 <= permits < 0] the semaphore
    starts with [availablePermits = permits]. *)
Theorem fromCapacity_any permits (h : Heap) :
  exists sem h',
    fromCapacity permits h = (inr sem, h') /\
    h' = h ++ [mkBuffer true (int32_bytes_le permits)] /\
    buffer sem = List.length h /\
    acquiredPermits sem = 0 /\
    availablePermits h' sem = ToInt32 permits /\
    (INT32_MIN <= permits < 0 -> availablePermits h' sem = permits /\
                                 availablePermits h' sem < 0).
Proof.
  eexists _, _. split; [apply fromCapacity_eq|].
  split; [reflexivity|]. split; [reflexivity|]. split; [reflexivity|].
  unfold availablePermits. cbn [_int32Array]. rewrite fromCapacity_cell.
  split; [reflexivity|]. intros Hneg.
  rewrite ToInt32_id by (unfold is_int32, INT32_MIN, INT32_MAX in *; lia). lia.
Qed.

Lemma fromCapacity_any_witness :
  exists sem h',
    fromCapacity (-5) [] = (inr sem, h') /\
    availablePermits h' sem = -5 /\ availablePermits h' sem < 0.
Proof.
  destruct (fromCapacity_any (-5) []) as (sem & h' & Heq & _ & _ & _ & _ & Hneg).
  exists sem, h'. split; [exact Heq|]. apply Hneg. unfold INT32_MIN. lia.
Defined.

(** X2.  Creating a semaphore does not disturb the ones that exist: every
    view that was live before [fromCapacity] is still live, still on a
    buffer of the same kind, reads the same values, and lies in another
    buffer than the new semaphore. *)
Theorem fromCapacity_leaves_others permits (h : Heap) (old : Semaphore) :
  valid_view h (_int32Array old) ->
  exists sem h',
    fromCapacity permits h = (inr sem, h') /\
    valid_view h' (_int32Array old) /\
    buffer_is_shared h' (_int32Array old) = buffer_is_shared h (_int32Array old) /\
    availablePermits h' old = availablePermits h old /\
    buffer sem <> buffer old.
Proof.
  intros Hv. eexists _, _. split; [apply fromCapacity_eq|].
  pose proof Hv as (buf & Hb & Hlen).
  split; [|split; [|split]].
  - exists buf. split; [now apply lookup_extended | exact Hlen].
  - unfold buffer_is_shared. now rewrite (lookup_extended h _ _ buf Hb), Hb.
  - unfold availablePermits, Atomics.load. now apply get_element_extended.
  - unfold buffer. cbn [_int32Array Int32Array.buffer].
    apply lookup_lt_Some in Hb. lia.
Qed.

Lemma fromCapacity_leaves_others_witness :
  exists sem h',
    fromCapacity 9 [mkBuffer true (int32_bytes_le 4)] = (inr sem, h') /\
    valid_view h' (Int32Array.mk 0 0 1) /\
    buffer_is_shared h' (Int32Array.mk 0 0 1)
    = buffer_is_shared [mkBuffer true (int32_bytes_le 4)] (Int32Array.mk 0 0 1) /\
    availablePermits h' (mkSemaphore 0 (Int32Array.mk 0 0 1))
    = availablePermits [mkBuffer true (int32_bytes_le 4)] (mkSemaphore 0 (Int32Array.mk 0 0 1)) /\
    buffer sem <> buffer (mkSemaphore 0 (Int32Array.mk 0 0 1)).
Proof.
  apply (fromCapacity_leaves_others 9 [mkBuffer true (int32_bytes_le 4)]
           (mkSemaphore 0 (Int32Array.mk 0 0 1))).
  exists (mkBuffer true (int32_bytes_le 4)). split; [reflexivity | cbn; lia].
Defined.

(** X3.  Passing [sem.buffer] to another context, which wraps it with
    [new Semaphore(new Int32Array(buffer))] as the worker does, gives an
    object on the very same cell when the buffer is shared and four bytes
    long: the constructor succeeds, the count starts at 0, the view is the
    view of [sem] and the heap is not touched. *)
Theorem rewrap_buffer (h : Heap) (sem : Semaphore) buf :
  h !! buffer sem = Some buf -> shared buf = true ->
  List.length (data buf) = 4%nat ->
  valid_view h (_int32Array sem) ->
  (0 < Int32Array.length (_int32Array sem))%nat ->
  constructor (new_Int32Array h (buffer sem)) h
  = (inr (mkSemaphore 0 (_int32Array sem)), h) /\
  availablePermits h (mkSemaphore 0 (_int32Array sem)) = availablePermits h sem.
Proof.
  intros Hb Hsh Hlen (buf' & Hb' & Hfit) Hpos. split; [|reflexivity].
  unfold buffer in *. rewrite Hb in Hb'. injection Hb' as <-.
  destruct sem as [a [b off len]]. cbn [_int32Array Int32Array.buffer
    Int32Array.byteOffset Int32Array.length] in *.
  assert (off = 0%nat) as -> by lia. assert (len = 1%nat) as -> by lia.
  unfold new_Int32Array. rewrite Hb, Hlen.
  unfold constructor, buffer_is_shared. cbn [Int32Array.buffer Int32Array.length].
  rewrite Hb, Hsh. reflexivity.
Qed.

Lemma rewrap_buffer_witness :
  constructor (new_Int32Array [mkBuffer true (int32_bytes_le 3)] 0)
              [mkBuffer true (int32_bytes_le 3)]
  = (inr (mkSemaphore 0 (Int32Array.mk 0 0 1)), [mkBuffer true (int32_bytes_le 3)]) /\
  availablePermits [mkBuffer true (int32_bytes_le 3)] (mkSemaphore 0 (Int32Array.mk 0 0 1))
  = availablePermits [mkBuffer true (int32_bytes_le 3)] (mkSemaphore 2 (Int32Array.mk 0 0 1)).
Proof.
  apply (rewrap_buffer [mkBuffer true (int32_bytes_le 3)]
           (mkSemaphore 2 (Int32Array.mk 0 0 1)) (mkBuffer true (int32_bytes_le 3))).
  - reflexivity.
  - reflexivity.
  - reflexivity.
  - exists (mkBuffer true (int32_bytes_le 3)). split; [reflexivity | cbn; lia].
  - cbn. lia.
Defined.

(** X4.  The [buffer] accessor forgets where in the buffer the cell lies.
    When a semaphore sits on one element of a shared buffer of [4 * k]
    bytes with [k <> 1], wrapping [sem.buffer] as the worker does throws
    the length error, and the heap is not touched. *)
Theorem rewrap_longer_buffer_fails (h : Heap) (sem : Semaphore) buf k :
  h !! buffer sem = Some buf -> shared buf = true ->
  List.length (data buf) = (4 * k)%nat -> k <> 1%nat ->
  constructor (new_Int32Array h (buffer sem)) h = (inl InvalidLength, h).
Proof.
  intros Hb Hsh Hlen Hk.
  unfold new_Int32Array. rewrite Hb, Hlen.
  replace (4 * k / 4)%nat with k by (rewrite Nat.mul_comm, Nat.div_mul; lia).
  unfold constructor, buffer_is_shared. cbn [Int32Array.buffer Int32Array.length].
  rewrite Hb, Hsh. cbn [negb].
  destruct (k =? 1)%nat eqn:E; [apply Nat.eqb_eq in E; contradiction | reflexivity].
Qed.

Lemma rewrap_longer_buffer_fails_witness :
  let h := [mkBuffer true (int32_bytes_le 3 ++ int32_bytes_le 1)] in
  constructor (Int32Array.mk 0 4 1) h = (inr (mkSemaphore 0 (Int32Array.mk 0 4 1)), h) /\
  constructor (new_Int32Array h (buffer (mkSemaphore 0 (Int32Array.mk 0 4 1)))) h
  = (inl InvalidLength, h).
Proof.
  intros h. split; [reflexivity|].
  apply (rewrap_longer_buffer_fails h (mkSemaphore 0 (Int32Array.mk 0 4 1))
           (mkBuffer true (int32_bytes_le 3 ++ int32_bytes_le 1)) 2);
    [reflexivity | reflexivity | reflexivity | lia].
Defined.

(** *** Waiting for permits *)

Lemma do_action_advance s i c c' h' eff :
  contexts s !! i = Some c -> advance c (heap s) = Some (c', h', eff) ->
  do_action s (Advance i)
  = Some (mkSystem h' (delivered eff (_int32Array (this c)) (<[i := c']> (contexts s))),
          effect_events i eff).
Proof. intros Hi Hadv. cbn [do_action]. now rewrite Hi, Hadv. Qed.

Lemma must_wait_loaded h ta : must_wait h ta (Atomics.load h ta 0) = true.
Proof.
  unfold must_wait. rewrite ToInt32_id by apply get_element_int32. apply Z.eqb_refl.
Qed.

Lemma ltb_lt_true a b : a < b -> (a <? b) = true.
Proof. intros H. now apply Z.ltb_lt. Qed.

(** The two atomic actions of [acquire] on a cell that holds too little. *)
Lemma acquire_goes_to_sleep s i c num :
  at_rest s i c -> 0 < num -> availablePermits (heap s) (this c) < num ->
  run s [Call i Acquire num; Advance i; Advance i]
  = Some (mkSystem (heap s) (<[i := goto (AcquireBlocked num) c]> (contexts s)), []).
Proof.
  intros (Hi & Hr & Hv & Hl) Hpos Hlt. unfold availablePermits in Hlt.
  cbn [run do_action]. rewrite Hi, Hr. cbn [is_idle enter]. unfold acquire.
  destruct (num <=? 0) eqn:E; [apply Z.leb_le in E; lia|].
  cbn [contexts heap]. rewrite (lookup_put _ _ _ _ Hi).
  unfold advance at 1. cbn [goto running this].
  rewrite (ltb_lt_true _ _ Hlt). cbn [delivered effect_events contexts heap].
  rewrite list_insert_insert_eq, (lookup_put _ _ _ _ Hi).
  unfold advance at 1. cbn [goto running this].
  rewrite must_wait_loaded. cbn [delivered effect_events contexts heap app goto this
    suspended]. rewrite list_insert_insert_eq. reflexivity.
Qed.

(** X5.  [acquire(num)] on a cell that holds fewer than [num] permits goes
    to sleep in [Atomics.wait] after two atomic actions: it has changed
    neither the cell nor the count, it cannot advance by itself, and
    scheduled alone it never returns, whatever the fuel. *)
Theorem acquire_sleeps_when_short s i c num :
  at_rest s i c -> 0 < num -> availablePermits (heap s) (this c) < num ->
  let asleep := mkSystem (heap s) (<[i := goto (AcquireBlocked num) c]> (contexts s)) in
  run s [Call i Acquire num; Advance i; Advance i] = Some (asleep, []) /\
  do_action asleep (Advance i) = None /\
  forall fuel, call fuel s i Acquire num = None.
Proof.
  intros Hrest Hpos Hlt asleep.
  pose proof (acquire_goes_to_sleep s i c num Hrest Hpos Hlt) as Hrun.
  destruct Hrest as (Hi & Hr & Hv & Hl). unfold availablePermits in Hlt.
  assert (Hstuck : do_action asleep (Advance i) = None).
  { unfold asleep. cbn [do_action contexts]. rewrite (lookup_put _ _ _ _ Hi).
    reflexivity. }
  split; [exact Hrun|]. split; [exact Hstuck|].
  intros fuel. unfold call. cbn [do_action]. rewrite Hi, Hr. cbn [is_idle enter].
  unfold acquire. destruct (num <=? 0) eqn:E; [apply Z.leb_le in E; lia|].
  destruct fuel as [|fuel].
  { cbn [drive contexts]. now rewrite (lookup_put _ _ _ _ Hi). }
  erewrite drive_step; cycle 1.
  { cbn [contexts]. eapply lookup_put; exact Hi. }
  { cbn [heap]. unfold advance. cbn [goto running this].
    rewrite (ltb_lt_true _ _ Hlt). reflexivity. }
  cbn [contexts heap delivered effect_events app goto this].
  rewrite list_insert_insert_eq.
  destruct fuel as [|fuel].
  { cbn [drive contexts]. now rewrite (lookup_put _ _ _ _ Hi). }
  erewrite drive_step; cycle 1.
  { cbn [contexts]. eapply lookup_put; exact Hi. }
  { cbn [heap]. unfold advance. cbn [goto running this].
    rewrite must_wait_loaded. reflexivity. }
  cbn [contexts heap delivered effect_events app goto this suspended].
  rewrite list_insert_insert_eq.
  destruct fuel as [|fuel]; cbn [drive contexts do_action];
    rewrite (lookup_put _ _ _ _ Hi); reflexivity.
Qed.

Lemma acquire_sleeps_when_short_witness :
  let asleep := mkSystem (heap (one_cell 1 0))
                  (<[0%nat := goto (AcquireBlocked 2) (fresh (mkSemaphore 0 (Int32Array.mk 0 0 1)))]>
                     (contexts (one_cell 1 0))) in
  run (one_cell 1 0) [Call 0 Acquire 2; Advance 0; Advance 0] = Some (asleep, []) /\
  do_action asleep (Advance 0) = None /\
  forall fuel, call fuel (one_cell 1 0) 0 Acquire 2 = None.
Proof.
  apply (acquire_sleeps_when_short (one_cell 1 0) 0
           (fresh (mkSemaphore 0 (Int32Array.mk 0 0 1))) 2).
  - split; [reflexivity|]. split; [reflexivity|]. split; [|cbn; lia].
    exists (mkBuffer true (int32_bytes_le 1)). split; [reflexivity | cbn; lia].
  - lia.
  - vm_compute. reflexivity.
Defined.

(** X6.  [acquireAsync(num)] on a cell that holds fewer than [num] permits
    hands back a pending promise: the call ends without an event, the
    context is free again, one activation waiting for a notification has
    been parked behind the ones already there, and neither the cell nor
    the count has changed. *)
Theorem acquireAsync_pends_when_short fuel s i c num :
  at_rest s i c -> availablePermits (heap s) (this c) < num -> (2 <= fuel)%nat ->
  call fuel s i AcquireAsync num
  = Some (mkSystem (heap s)
            (<[i := mkContext (this c) Idle (suspended c ++ [mkSuspended num false])]>
               (contexts s)), []).
Proof.
  intros (Hi & Hr & Hv & Hl) Hlt Hfuel. unfold availablePermits in Hlt.
  destruct fuel as [|[|fuel]]; try lia.
  unfold call. cbn [do_action]. rewrite Hi, Hr. cbn [is_idle enter]. unfold acquireAsync.
  drive_one Hi.
  { rewrite (ltb_lt_true _ _ Hlt). reflexivity. }
  drive_one Hi.
  { rewrite must_wait_loaded. reflexivity. }
  cbn [park negb goto this suspended].
  eapply drive_idle; [eapply lookup_put; exact Hi | reflexivity].
Qed.

Lemma acquireAsync_pends_when_short_witness :
  call 2 (one_cell 1 0) 0 AcquireAsync 2
  = Some (mkSystem (heap (one_cell 1 0))
            (<[0%nat := mkContext (mkSemaphore 0 (Int32Array.mk 0 0 1)) Idle
                          ([] ++ [mkSuspended 2 false])]> (contexts (one_cell 1 0))), []).
Proof.
  apply (acquireAsync_pends_when_short 2 (one_cell 1 0) 0
           (fresh (mkSemaphore 0 (Int32Array.mk 0 0 1))) 2).
  - split; [reflexivity|]. split; [reflexivity|]. split; [|cbn; lia].
    exists (mkBuffer true (int32_bytes_le 1)). split; [reflexivity | cbn; lia].
  - vm_compute. reflexivity.
  - lia.
Defined.

(** *** Sleeping and waking *)








Lemma awake_wake ta c : _int32Array (this c) = ta -> awake (wake ta c).
Proof.
  intros <-. unfold wake, same_cell. rewrite !Nat.eqb_refl. cbn [andb]. split.
  - cbn [running]. intros n. destruct (running c); discriminate.
  - cbn [suspended]. apply Forall_fmap, Forall_true. intros k. reflexivity.
Qed.

(** X8.  [release] notifies every waiter.  When all contexts share the
    cell, a [release(num)] with [num] not above the count, scheduled alone,
    returns and leaves no thread asleep in [Atomics.wait] and no parked
    [acquireAsync] waiting for a notification, in any context. *)
Theorem release_wakes_everyone fuel ta s i c num :
  sharing ta s -> at_rest s i c -> num <= acquiredPermits (this c) -> (4 <= fuel)%nat ->
  exists s', call fuel s i Release num = Some (s', [Returned i Release num]) /\
    Forall awake (contexts s').
Proof.
  intros Hsh Hrest Hle Hfuel.
  eexists. split; [exact (release_call fuel s i c num Hrest Hle Hfuel)|].
  cbn [contexts]. destruct Hrest as (Hi & _).
  pose proof (sharing_lookup ta s i c Hsh Hi) as Hta. rewrite Hta.
  destruct Hsh as (_ & _ & Hall).
  apply Forall_fmap. apply (Forall_impl (fun c => _int32Array (this c) = ta)).
  - apply Forall_insert; [exact Hall | reflexivity].
  - intros x Hx. now apply awake_wake.
Qed.

Lemma release_wakes_everyone_witness :
  let s := mkSystem [mkBuffer true (int32_bytes_le 0)]
             [mkContext (mkSemaphore 1 (Int32Array.mk 0 0 1)) Idle [mkSuspended 2 false];
              mkContext (mkSemaphore 0 (Int32Array.mk 0 0 1)) (AcquireBlocked 1) []] in
  exists s', call 4 s 0 Release 1 = Some (s', [Returned 0 Release 1]) /\
    Forall awake (contexts s').
Proof.
  intros s.
  apply (release_wakes_everyone 4 (Int32Array.mk 0 0 1) s 0
           (mkContext (mkSemaphore 1 (Int32Array.mk 0 0 1)) Idle [mkSuspended 2 false]) 1).
  - split; [|split; [cbn; lia | repeat constructor]].
    exists (mkBuffer true (int32_bytes_le 0)). split; [reflexivity | cbn; lia].
  - split; [reflexivity|]. split; [reflexivity|]. split; [|cbn; lia].
    exists (mkBuffer true (int32_bytes_le 0)). split; [reflexivity | cbn; lia].
  - cbn. lia.
  - lia.
Defined.

(** An activation of [acquire] or [acquireAsync] that is about to read a
    cell holding enough permits completes in three atomic actions. *)
Lemma acquire_completes fuel s j c num tr :
  contexts s !! j = Some c -> running c = AcquireLoad num ->
  valid_view (heap s) (_int32Array (this c)) ->
  (0 < Int32Array.length (_int32Array (this c)))%nat ->
  num <= availablePermits (heap s) (this c) -> (3 <= fuel)%nat ->
  drive fuel j s tr
  = Some (mkSystem
            (set_element (heap s) (_int32Array (this c)) 0
               (availablePermits (heap s) (this c) - num))
            (<[j := mkContext (mkSemaphore (_acquiredPermits (this c) + num)
                                 (_int32Array (this c))) Idle (suspended c)]> (contexts s)),
          tr ++ [Returned j Acquire num]).
Proof.
  intros Hj Hr Hv Hl Hle Hfuel. unfold availablePermits in *.
  destruct fuel as [|[|[|fuel]]]; try lia.
  drive_one Hj.
  { rewrite Hr. rewrite ltb_ge_false by exact Hle. reflexivity. }
  drive_one Hj.
  { rewrite compareExchange_spec by apply get_element_int32.
    rewrite Z.eqb_refl. cbn iota beta. rewrite Z.eqb_refl. reflexivity. }
  drive_one Hj.
  { reflexivity. }
  rewrite <- !app_assoc. cbn [app].
  eapply drive_idle; [eapply lookup_put; exact Hj | reflexivity].
Qed.

Lemma acquireAsync_completes fuel s j c num tr :
  contexts s !! j = Some c -> running c = AsyncLoad num ->
  valid_view (heap s) (_int32Array (this c)) ->
  (0 < Int32Array.length (_int32Array (this c)))%nat ->
  num <= availablePermits (heap s) (this c) -> (3 <= fuel)%nat ->
  drive fuel j s tr
  = Some (mkSystem
            (set_element (heap s) (_int32Array (this c)) 0
               (availablePermits (heap s) (this c) - num))
            (<[j := mkContext (mkSemaphore (_acquiredPermits (this c) + num)
                                 (_int32Array (this c))) Idle (suspended c)]> (contexts s)),
          tr ++ [Returned j AcquireAsync num]).
Proof.
  intros Hj Hr Hv Hl Hle Hfuel. unfold availablePermits in *.
  destruct fuel as [|[|[|fuel]]]; try lia.
  drive_one Hj.
  { rewrite Hr. rewrite ltb_ge_false by exact Hle. reflexivity. }
  drive_one Hj.
  { rewrite compareExchange_spec by apply get_element_int32.
    rewrite Z.eqb_refl. cbn iota beta. rewrite Z.eqb_refl. reflexivity. }
  drive_one Hj.
  { reflexivity. }
  rewrite <- !app_assoc. cbn [app].
  eapply drive_idle; [eapply lookup_put; exact Hj | reflexivity].
Qed.

Lemma ToInt32_sub_l x y : ToInt32 (ToInt32 x - y) = ToInt32 (x - y).
Proof.
  destruct (ToInt32_spec x) as [k ->].
  replace (x + k * 2 ^ 32 - y) with (x - y + k * 2 ^ 32) by lia.
  apply ToInt32_shift.
Qed.

Lemma wake_shared ta c :
  _int32Array (this c) = ta ->
  wake ta c = mkContext (this c)
                (match running c with AcquireBlocked num => AcquireLoad num | p => p end)
                ((fun k => mkSuspended (s_num k) true) <$> suspended c).
Proof. intros <-. unfold wake, same_cell. now rewrite !Nat.eqb_refl. Qed.

(** X9.  Hand-over.  All contexts share the cell; context [j] sleeps in
    [acquire(num)], [num >= 1].  When another context releases [n] permits
    and the cell then holds at least [num], the release returns, and
    context [j], once scheduled, completes its [acquire]: its count goes up
    by [num] and the cell ends at [ToInt32 (value + n - num)].  The amount
    [n] and the two counts have magnitude at most [2^52]. *)
Theorem release_hands_over fuel ta s i j ci cj n num :
  sharing ta s -> i <> j -> at_rest s i ci -> n <= acquiredPermits (this ci) ->
  contexts s !! j = Some cj -> running cj = AcquireBlocked num ->
  num <= ToInt32 (cell ta s + n) -> (4 <= fuel)%nat ->
  small n -> small (acquiredPermits (this ci)) -> small (acquiredPermits (this cj)) ->
  1 <= num ->
  exists s1 s2 cj',
    call fuel s i Release n = Some (s1, [Returned i Release n]) /\
    drive fuel j s1 [] = Some (s2, [Returned j Acquire num]) /\
    contexts s2 !! j = Some cj' /\ running cj' = Idle /\
    acquiredPermits (this cj') = acquiredPermits (this cj) + num /\
    cell ta s2 = ToInt32 (cell ta s + n - num).
Proof.
  intros Hsh Hne Hrest Hle Hj Hrj Hnum Hfuel _ _ _ _.
  pose proof (release_call fuel s i ci n Hrest Hle Hfuel) as Hcall.
  destruct Hrest as (Hi & Hri & Hv & Hl).
  pose proof (sharing_lookup ta s i ci Hsh Hi) as Hti.
  pose proof (sharing_lookup ta s j cj Hsh Hj) as Htj.
  rewrite Hti in *. unfold availablePermits in Hcall. rewrite Hti in Hcall.
  unfold cell in Hnum.
  set (h1 := set_element (heap s) ta 0 (Atomics.load (heap s) ta 0 + n)) in *.
  set (cs1 := wake ta <$> _) in Hcall.
  assert (Hj1 : cs1 !! j = Some (mkContext (this cj) (AcquireLoad num)
                  ((fun k => mkSuspended (s_num k) true) <$> suspended cj))).
  { unfold cs1. rewrite list_lookup_fmap, list_lookup_insert_ne, Hj by exact Hne.
    cbn [fmap option_fmap option_map]. rewrite (wake_shared ta cj Htj), Hrj. reflexivity. }
  assert (Hload1 : Atomics.load h1 ta 0 = ToInt32 (Atomics.load (heap s) ta 0 + n)).
  { unfold h1. now apply load_set_element. }
  eexists _, _, _. split; [exact Hcall|].
  split.
  { apply (acquire_completes fuel (mkSystem h1 cs1) j _ num [] Hj1).
    - reflexivity.
    - cbn [heap this]. rewrite Htj. now apply valid_view_set_element.
    - cbn [this]. now rewrite Htj.
    - unfold availablePermits. cbn [heap this]. rewrite Htj, Hload1. exact Hnum.
    - lia. }
  cbn [contexts heap this suspended _acquiredPermits _int32Array].
  split; [eapply lookup_put; exact Hj1|].
  split; [reflexivity|]. split; [reflexivity|].
  unfold cell, availablePermits. cbn [heap this]. rewrite Htj.
  rewrite load_set_element by (try apply valid_view_set_element; assumption).
  rewrite Hload1. apply ToInt32_sub_l.
Qed.

Lemma release_hands_over_witness :
  let s := mkSystem [mkBuffer true (int32_bytes_le 0)]
             [mkContext (mkSemaphore 1 (Int32Array.mk 0 0 1)) Idle [];
              mkContext (mkSemaphore 0 (Int32Array.mk 0 0 1)) (AcquireBlocked 1) []] in
  exists s1 s2 cj',
    call 4 s 0 Release 1 = Some (s1, [Returned 0 Release 1]) /\
    drive 4 1 s1 [] = Some (s2, [Returned 1 Acquire 1]) /\
    contexts s2 !! 1%nat = Some cj' /\ running cj' = Idle /\
    acquiredPermits (this cj') = 0 + 1 /\
    cell (Int32Array.mk 0 0 1) s2 = ToInt32 (cell (Int32Array.mk 0 0 1) s + 1 - 1).
Proof.
  intros s.
  apply (release_hands_over 4 (Int32Array.mk 0 0 1) s 0 1
           (mkContext (mkSemaphore 1 (Int32Array.mk 0 0 1)) Idle [])
           (mkContext (mkSemaphore 0 (Int32Array.mk 0 0 1)) (AcquireBlocked 1) []) 1 1).
  - split; [|split; [cbn; lia | repeat constructor]].
    exists (mkBuffer true (int32_bytes_le 0)). split; [reflexivity | cbn; lia].
  - lia.
  - split; [reflexivity|]. split; [reflexivity|]. split; [|cbn; lia].
    exists (mkBuffer true (int32_bytes_le 0)). split; [reflexivity | cbn; lia].
  - cbn. lia.
  - reflexivity.
  - reflexivity.
  - vm_compute. discriminate.
  - lia.
  - unfold small. lia.
  - unfold small. cbn. lia.
  - unfold small. cbn. lia.
  - lia.
Defined.

(** X10.  Hand-over to a pending promise.  All contexts share the cell;
    context [j] is free and has parked an [acquireAsync(num)] that waits
    for a notification.  When another context releases [n] permits and the
    cell then holds at least [num], the parked activation can be resumed
    and completes: the promise resolves, the count of [j] goes up by [num]
    and the cell ends at [ToInt32 (value + n - num)].  Here [num >= 1], and
    the amount [n] and the two counts have magnitude at most [2^52]. *)
Theorem release_resolves_pending fuel ta s i j k ci cj n num :
  sharing ta s -> i <> j -> at_rest s i ci -> n <= acquiredPermits (this ci) ->
  contexts s !! j = Some cj -> running cj = Idle ->
  suspended cj !! k = Some (mkSuspended num false) ->
  num <= ToInt32 (cell ta s + n) -> (4 <= fuel)%nat ->
  small n -> small (acquiredPermits (this ci)) -> small (acquiredPermits (this cj)) ->
  1 <= num ->
  exists s1 s2 s3 cj',
    call fuel s i Release n = Some (s1, [Returned i Release n]) /\
    do_action s1 (Resume j k) = Some (s2, []) /\
    drive fuel j s2 [] = Some (s3, [Returned j AcquireAsync num]) /\
    contexts s3 !! j = Some cj' /\ running cj' = Idle /\
    acquiredPermits (this cj') = acquiredPermits (this cj) + num /\
    cell ta s3 = ToInt32 (cell ta s + n - num).
Proof.
  intros Hsh Hne Hrest Hle Hj Hrj Hk Hnum Hfuel _ _ _ _.
  pose proof (release_call fuel s i ci n Hrest Hle Hfuel) as Hcall.
  destruct Hrest as (Hi & Hri & Hv & Hl).
  pose proof (sharing_lookup ta s i ci Hsh Hi) as Hti.
  pose proof (sharing_lookup ta s j cj Hsh Hj) as Htj.
  rewrite Hti in *. unfold availablePermits in Hcall. rewrite Hti in Hcall.
  unfold cell in Hnum.
  set (h1 := set_element (heap s) ta 0 (Atomics.load (heap s) ta 0 + n)) in *.
  set (cs1 := wake ta <$> _) in Hcall.
  set (ready := (fun k => mkSuspended (s_num k) true) <$> suspended cj).
  assert (Hj1 : cs1 !! j = Some (mkContext (this cj) Idle ready)).
  { unfold cs1. rewrite list_lookup_fmap, list_lookup_insert_ne, Hj by exact Hne.
    cbn [fmap option_fmap option_map]. rewrite (wake_shared ta cj Htj), Hrj. reflexivity. }
  assert (Hk1 : ready !! k = Some (mkSuspended num true)).
  { unfold ready. rewrite list_lookup_fmap, Hk. reflexivity. }
  assert (Hload1 : Atomics.load h1 ta 0 = ToInt32 (Atomics.load (heap s) ta 0 + n)).
  { unfold h1. now apply load_set_element. }
  eexists _, _, _, _. split; [exact Hcall|].
  split.
  { cbn [do_action contexts]. rewrite Hj1. cbn [running is_idle suspended].
    rewrite Hk1. reflexivity. }
  split.
  { eapply (acquireAsync_completes fuel _ j _ num []).
    - cbn [contexts]. eapply lookup_put; exact Hj1.
    - reflexivity.
    - cbn [heap this]. rewrite Htj. now apply valid_view_set_element.
    - cbn [this]. now rewrite Htj.
    - unfold availablePermits. cbn [heap this]. rewrite Htj, Hload1. exact Hnum.
    - lia. }
  cbn [contexts heap this suspended _acquiredPermits _int32Array].
  split; [rewrite list_insert_insert_eq; eapply lookup_put; exact Hj1|].
  split; [reflexivity|]. split; [reflexivity|].
  unfold cell, availablePermits. cbn [heap this]. rewrite Htj.
  rewrite load_set_element by (try apply valid_view_set_element; assumption).
  rewrite Hload1. apply ToInt32_sub_l.
Qed.

Lemma release_resolves_pending_witness :
  let s := mkSystem [mkBuffer true (int32_bytes_le 0)]
             [mkContext (mkSemaphore 2 (Int32Array.mk 0 0 1)) Idle [];
              mkContext (mkSemaphore 0 (Int32Array.mk 0 0 1)) Idle [mkSuspended 2 false]] in
  exists s1 s2 s3 cj',
    call 4 s 0 Release 2 = Some (s1, [Returned 0 Release 2]) /\
    do_action s1 (Resume 1 0) = Some (s2, []) /\
    drive 4 1 s2 [] = Some (s3, [Returned 1 AcquireAsync 2]) /\
    contexts s3 !! 1%nat = Some cj' /\ running cj' = Idle /\
    acquiredPermits (this cj') = 0 + 2 /\
    cell (Int32Array.mk 0 0 1) s3 = ToInt32 (cell (Int32Array.mk 0 0 1) s + 2 - 2).
Proof.
  intros s.
  apply (release_resolves_pending 4 (Int32Array.mk 0 0 1) s 0 1 0
           (mkContext (mkSemaphore 2 (Int32Array.mk 0 0 1)) Idle [])
           (mkContext (mkSemaphore 0 (Int32Array.mk 0 0 1)) Idle [mkSuspended 2 false]) 2 2).
  - split; [|split; [cbn; lia | repeat constructor]].
    exists (mkBuffer true (int32_bytes_le 0)). split; [reflexivity | cbn; lia].
  - lia.
  - split; [reflexivity|]. split; [reflexivity|]. split; [|cbn; lia].
    exists (mkBuffer true (int32_bytes_le 0)). split; [reflexivity | cbn; lia].
  - cbn. lia.
  - reflexivity.
  - reflexivity.
  - reflexivity.
  - vm_compute. discriminate.
  - lia.
  - unfold small. lia.
  - unfold small. cbn. lia.
  - unfold small. cbn. lia.
  - lia.
Defined.

(** *** No permit is taken that is not there *)

Lemma frame_checked_wake ta c :
  frame_checked (running c) -> frame_checked (running (wake ta c)).
Proof.
  unfold wake. destruct (same_cell _ _); [|auto]. cbn. now destruct (running c).
Qed.

(** The executing activation keeps its locals checked, emits only amounts
    that fit, and swaps only on a cell that holds what it takes. *)
Lemma advance_checked c h c' h' eff i :
  frame_checked (running c) -> advance c h = Some (c', h', eff) ->
  frame_checked (running c') /\ Forall acquired_fits (effect_events i eff) /\
  forall num, running c' = AcquireAdd num \/ running c' = AsyncAdd num ->
    num <= Atomics.load h (_int32Array (this c)) 0 /\
    h' = set_element h (_int32Array (this c)) 0
           (Atomics.load h (_int32Array (this c)) 0 - num).
Proof.
  intros Hc Hadv.
  pose proof (get_element_int32 h (_int32Array (this c)) 0) as Hrange.
  unfold advance in Hadv.
  destruct (running c) eqn:Hr; try discriminate; cbn [frame_checked] in Hc.
  all: repeat match type of Hadv with
       | context [Atomics.compareExchange ?h ?ta 0 ?av ?new] =>
           rewrite (compareExchange_spec h ta av new) in Hadv by apply Hc
       | context [Atomics.compareExchange ?h ?ta 0 ?av ?new] =>
           destruct (Atomics.compareExchange h ta 0 av new) as [old hh]
       | context [if ?b then _ else _] =>
           let E := fresh "E" in destruct b eqn:E
       | (let '(_, _) := (_, _) in _) = _ => cbn iota beta in Hadv
       | context [?x =? ?x] => rewrite (Z.eqb_refl x) in Hadv
       end.
  all: injection Hadv as <- <- <-.
  all: cbn [goto park add_permits running this _int32Array frame_checked effect_events].
  all: repeat match goal with
       | E : (_ =? _) = true |- _ => apply Z.eqb_eq in E
       | E : (_ <? _) = false |- _ => apply Z.ltb_ge in E
       end.
  all: split; [|split].
  all: try (intros n [Hn|Hn]; discriminate Hn).
  all: try (repeat constructor; cbn [acquired_fits]; first [exact Hc | exact I]).
  all: try exact I.
  all: unfold is_int32, INT32_MAX in *; try lia.
  all: try (split; [exact E | apply Hrange]).
  all: intros n [Hn|Hn]; try discriminate Hn; injection Hn as <-.
  all: rewrite E; split; [lia | reflexivity].
Qed.

Lemma advance_ends_idle c h c' h' eff :
  advance c h = Some (c', h', eff) -> eff <> Tau -> running c' = Idle.
Proof.
  intros Hadv Hne. unfold advance in Hadv.
  destruct (running c); try discriminate;
    repeat match type of Hadv with
      | context [Atomics.compareExchange ?h ?ta 0 ?av ?new] =>
          destruct (Atomics.compareExchange h ta 0 av new) as [old hh]
      | context [if ?b then _ else _] => destruct b
      end;
    injection Hadv as <- <- <-; try reflexivity; contradiction.
Qed.

Lemma run_checked acts : forall s s' tr,
  frames_checked s -> run s acts = Some (s', tr) ->
  frames_checked s' /\ Forall acquired_fits tr.
Proof.
  induction acts as [|a acts IH]; intros s s' tr Hc Hrun; cbn [run] in Hrun.
  - injection Hrun as <- <-. split; [exact Hc | constructor].
  - destruct (do_action s a) as [[s1 ev1]|] eqn:Hdo; try discriminate.
    destruct (run s1 acts) as [[s2 ev2]|] eqn:Hrest; try discriminate.
    injection Hrun as <- <-.
    assert (H1 : frames_checked s1 /\ Forall acquired_fits ev1).
    { unfold frames_checked in *.
      destruct a as [i m num | i | i k]; cbn [do_action] in Hdo;
        destruct (contexts s !! i) as [c|] eqn:Hi; try discriminate.
      - destruct (is_idle (running c)); try discriminate.
        destruct (enter m num (this c)) as [e|p] eqn:He; injection Hdo as <- <-.
        + split; [exact Hc | repeat constructor].
        + split; [|constructor]. cbn [contexts]. apply Forall_insert; [exact Hc|].
          destruct m; cbn in He; unfold acquire, release, acquireAsync in He;
            repeat match type of He with context [if ?b then _ else _] => destruct b end;
            inversion He; exact I.
      - destruct (advance c (heap s)) as [[[c' h'] eff]|] eqn:Hadv; try discriminate.
        injection Hdo as <- <-.
        destruct (advance_checked c (heap s) c' h' eff i
                    (Forall_lookup_1 _ _ _ _ Hc Hi) Hadv) as (Hc' & Hev & _).
        split; [|exact Hev]. cbn [contexts].
        assert (Hins : Forall (fun c => frame_checked (running c)) (<[i := c']> (contexts s)))
          by now apply Forall_insert.
        destruct eff; cbn [delivered]; try exact Hins.
        apply Forall_fmap. eapply Forall_impl; [exact Hins|].
        intros x Hx. unfold compose. now apply frame_checked_wake.
      - destruct (is_idle (running c)); try discriminate.
        destruct (suspended c !! k) as [[n [|]]|]; try discriminate.
        injection Hdo as <- <-. split; [|constructor].
        cbn [contexts]. apply Forall_insert; [exact Hc | exact I]. }
    destruct H1 as (Hc1 & Hev1).
    destruct (IH s1 s2 ev2 Hc1 Hrest) as (Hc2 & Hev2).
    split; [exact Hc2 | apply Forall_app; auto].
Qed.

Lemma quiescent_checked s : quiescent s -> frames_checked s.
Proof.
  unfold quiescent, frames_checked. intros H. eapply Forall_impl; [exact H|].
  intros c Hc. cbn beta. rewrite Hc. exact I.
Qed.

(** X11.  No over-acquisition.  In every state reached by any schedule
    from a system at rest, the atomic action by which an [acquire(num)] or
    an [acquireAsync(num)] with [num >= 1] takes its permits (the
    successful swap, after which only the count is updated) happens on a
    cell that holds at least [num], and it stores [value - num] through
    [ToInt32]. *)
Theorem takes_only_what_is_there s0 acts s tr i c s' ev c' num :
  quiescent s0 -> run s0 acts = Some (s, tr) ->
  contexts s !! i = Some c -> do_action s (Advance i) = Some (s', ev) ->
  contexts s' !! i = Some c' ->
  running c' = AcquireAdd num \/ running c' = AsyncAdd num ->
  1 <= num ->
  num <= availablePermits (heap s) (this c) /\
  heap s' = set_element (heap s) (_int32Array (this c)) 0
              (availablePermits (heap s) (this c) - num) /\
  ev = [].
Proof.
  intros Hq Hrun Hi Hdo Hi' Hadd _.
  destruct (run_checked acts s0 s tr (quiescent_checked s0 Hq) Hrun) as (Hc & _).
  cbn [do_action] in Hdo. rewrite Hi in Hdo.
  destruct (advance c (heap s)) as [[[c1 h1] eff]|] eqn:Hadv; try discriminate.
  injection Hdo as <- <-. cbn [contexts heap] in *.
  destruct (advance_checked c (heap s) c1 h1 eff i
              (Forall_lookup_1 _ _ _ _ Hc Hi) Hadv) as (_ & _ & Hswap).
  assert (Heff : eff = Tau /\ c1 = c').
  { destruct eff as [|m n|n].
    - cbn [delivered] in Hi'. rewrite (lookup_put _ _ _ _ Hi) in Hi'.
      injection Hi' as <-. auto.
    - exfalso. cbn [delivered] in Hi'. rewrite (lookup_put _ _ _ _ Hi) in Hi'.
      injection Hi' as <-.
      rewrite (advance_ends_idle _ _ _ _ _ Hadv) in Hadd by discriminate.
      destruct Hadd; discriminate.
    - exfalso. cbn [delivered] in Hi'.
      rewrite list_lookup_fmap, (lookup_put _ _ _ _ Hi) in Hi'. injection Hi' as <-.
      rewrite idle_wake in Hadd
        by (apply (advance_ends_idle _ _ _ _ _ Hadv); discriminate).
      destruct Hadd; discriminate. }
  destruct Heff as (-> & ->). unfold availablePermits.
  destruct (Hswap num Hadd) as (Hle & Hh). auto.
Qed.

Lemma takes_only_what_is_there_witness :
  let sem := mkSemaphore 0 (Int32Array.mk 0 0 1) in
  let s := mkSystem [mkBuffer true (int32_bytes_le 3)] [mkContext sem (AcquireCas 2 3) []] in
  let s' := mkSystem [mkBuffer true (int32_bytes_le 1)] [mkContext sem (AcquireAdd 2) []] in
  2 <= availablePermits (heap s) sem /\
  heap s' = set_element (heap s) (Int32Array.mk 0 0 1) 0 (availablePermits (heap s) sem - 2) /\
  @nil Event = [].
Proof.
  intros sem s s'.
  apply (takes_only_what_is_there (one_cell 3 0) [Call 0 Acquire 2; Advance 0] s []
           0 (mkContext sem (AcquireCas 2 3) []) s' [] (mkContext sem (AcquireAdd 2) []) 2).
  - repeat constructor.
  - vm_compute. reflexivity.
  - reflexivity.
  - vm_compute. reflexivity.
  - reflexivity.
  - left. reflexivity.
  - lia.
Defined.

(** X12.  A request that does not fit in the cell is never served.  Along
    every schedule from a system at rest, every [acquire(num)] and every
    [acquireAsync(num)] that returned had [num <= 2^31 - 1]: a call with a
    larger [num] can only wait. *)
Theorem oversized_acquire_never_returns s0 acts s tr i m num :
  quiescent s0 -> run s0 acts = Some (s, tr) ->
  In (Returned i m num) tr -> m <> Release -> num <= INT32_MAX.
Proof.
  intros Hq Hrun Hin Hm.
  destruct (run_checked acts s0 s tr (quiescent_checked s0 Hq) Hrun) as (_ & Hfits).
  rewrite Forall_forall in Hfits.
  specialize (Hfits (Returned i m num) (proj2 (list_elem_of_In _ _) Hin)).
  destruct m; cbn [acquired_fits] in Hfits; try exact Hfits. contradiction.
Qed.

Lemma oversized_acquire_never_returns_witness : 2 <= INT32_MAX.
Proof.
  apply (oversized_acquire_never_returns (one_cell 3 0)
           [Call 0 Acquire 2; Advance 0; Advance 0; Advance 0]
           (mkSystem [mkBuffer true (int32_bytes_le 1)]
              [mkContext (mkSemaphore 2 (Int32Array.mk 0 0 1)) Idle []])
           [Returned 0 Acquire 2] 0 Acquire 2).
  - repeat constructor.
  - vm_compute. reflexivity.
  - left. reflexivity.
  - discriminate.
Defined.

(** *** No wake-up is lost *)

Lemma Exists_insert_new (P : Context -> Prop) (l : list Context) i c c' :
  l !! i = Some c -> P c' -> Exists P (<[i := c']> l).
Proof.
  revert i. induction l as [|x l IH]; intros [|i] Hi HP; try discriminate.
  - now left.
  - change (<[S i := c']> (x :: l)) with (x :: <[i := c']> l). right. eauto.
Qed.

Lemma Exists_insert_keep (P : Context -> Prop) (l : list Context) i c c' :
  Exists P l -> l !! i = Some c -> ~ P c -> Exists P (<[i := c']> l).
Proof.
  intros HE. revert i. induction HE as [x l Hx|x l HE IH]; intros [|i] Hi Hn.
  - injection Hi as ->. contradiction.
  - change (<[S i := c']> (x :: l)) with (x :: <[i := c']> l). now left.
  - right. exact HE.
  - change (<[S i := c']> (x :: l)) with (x :: <[i := c']> l). right. eauto.
Qed.

Lemma lacks_mono v v' c : v' <= v -> lacks v c -> lacks v' c.
Proof.
  intros Hle (Hb & Hs). split.
  - intros n Hn. specialize (Hb n Hn). lia.
  - eapply Forall_impl; [exact Hs|]. intros k Hk Hr. specialize (Hk Hr). lia.
Qed.

Lemma awake_lacks v c : awake c -> lacks v c.
Proof.
  intros (Hb & Hs). split.
  - intros n Hn. destruct (Hb n Hn).
  - eapply Forall_impl; [exact Hs|]. intros k Hk Hr. congruence.
Qed.

Lemma frame_waits_wake tb c : frame_waits c -> frame_waits (wake tb c).
Proof.
  unfold wake. destruct (same_cell _ _); [|auto].
  intros (Hf & Hs). split; cbn [running suspended].
  - destruct (running c); try exact Hf; exact I.
  - apply Forall_fmap. eapply Forall_impl; [exact Hs|]. intros k Hk. exact Hk.
Qed.

(** Case analysis on the next action, with the tests turned into facts. *)
Ltac next_action Hadv Hf :=
  unfold advance in Hadv;
  match type of Hadv with
  | match running ?c with _ => _ end = _ =>
      let Hr := fresh "Hr" in destruct (running c) eqn:Hr; try discriminate
  end;
  repeat match type of Hadv with
    | context [Atomics.compareExchange ?h ?ta 0 ?av ?new] =>
        rewrite (compareExchange_spec h ta av new) in Hadv by apply Hf
    | context [if ?b then _ else _] =>
        let E := fresh "E" in destruct b eqn:E
    | (let '(_, _) := (_, _) in _) = _ => cbn iota beta in Hadv
    | context [?x =? ?x] => rewrite (Z.eqb_refl x) in Hadv
    end;
  injection Hadv as <- <- <-;
  cbn [goto park add_permits running this _int32Array suspended];
  unfold must_wait in *;
  repeat match goal with
    | E : (_ =? _) = true |- _ => apply Z.eqb_eq in E
    | E : (_ <? _) = true |- _ => apply Z.ltb_lt in E
    | E : (_ <? _) = false |- _ => apply Z.ltb_ge in E
    end.

Lemma advance_same_cell ta c h c' h' eff :
  _int32Array (this c) = ta -> valid_view h ta ->
  advance c h = Some (c', h', eff) ->
  _int32Array (this c') = ta /\ valid_view h' ta.
Proof.
  intros Hta Hv Hadv. rewrite <- Hta in *. unfold advance in Hadv.
  destruct (running c); try discriminate;
    unfold Atomics.compareExchange in Hadv;
    repeat match type of Hadv with
      | context [if ?b then _ else _] => destruct b
      end;
    injection Hadv as <- <- <-; split; try reflexivity; try assumption;
    now apply valid_view_set_element.
Qed.

Lemma advance_frame_waits c h c' h' eff :
  frame_waits c -> advance c h = Some (c', h', eff) -> frame_waits c'.
Proof.
  intros (Hf & Hs) Hadv.
  pose proof (get_element_int32 h (_int32Array (this c)) 0) as Hrange.
  unfold frame_waits. next_action Hadv Hf.
  all: split; [|first [exact Hs | apply Forall_app; split; [exact Hs|];
                                  repeat constructor; cbn [s_num]; apply Hf]].
  all: try exact I; try exact Hf; try apply Hf.
  all: unfold Atomics.load in *; repeat split; try lia; try apply Hrange; try apply Hf.
Qed.

Lemma advance_waits ta c h c' h' eff :
  _int32Array (this c) = ta -> valid_view h ta -> (0 < Int32Array.length ta)%nat ->
  frame_waits c -> advance c h = Some (c', h', eff) ->
  (releasing c' /\ eff = Tau) \/ (exists n, eff = NotifyRet n) \/
  (~ releasing c /\ (forall cs, delivered eff ta cs = cs) /\
   Atomics.load h' ta 0 <= Atomics.load h ta 0 /\
   (lacks (Atomics.load h ta 0) c -> lacks (Atomics.load h' ta 0) c')).
Proof.
  intros Hta Hv Hl (Hf & Hs) Hadv. rewrite <- Hta in *.
  pose proof (get_element_int32 h (_int32Array (this c)) 0) as Hrange.
  unfold releasing, lacks. next_action Hadv Hf.
  all: try (left; split; [exact I | reflexivity]).
  all: try (right; left; eexists; reflexivity).
  all: right; right; split; [intros []|]; split; [intros cs; reflexivity|].
  all: rewrite ?load_set_element by assumption.
  all: unfold Atomics.load, is_int32, INT32_MIN, INT32_MAX in *.
  all: try rewrite ToInt32_id in *
         by (unfold is_int32, INT32_MIN, INT32_MAX; lia).
  all: split; [lia|]; intros (Hb & Hsus); split.
  all: try (intros n Hn; discriminate Hn).
  all: try exact Hsus.
  all: try (eapply Forall_impl; [exact Hsus|]; intros k Hk Hready;
            specialize (Hk Hready); lia).
  - intros n Hn. injection Hn as <-. lia.
  - apply Forall_app. split; [exact Hsus|]. constructor; [|constructor].
    cbn [s_ready s_num]. intros Hready. apply negb_false_iff, Z.eqb_eq in Hready. lia.
Qed.

Lemma initial_frame_waits m num sem p :
  asks_positive (Call 0 m num) -> enter m num sem = inr p ->
  match p with
  | AcquireLoad n | AsyncLoad n => 1 <= n
  | ReleaseLoad _ => True
  | _ => False
  end.
Proof.
  intros Hp He. destruct m; cbn in He, Hp; unfold acquire, release, acquireAsync in He;
    repeat match type of He with
      | context [if ?b then _ else _] => destruct b eqn:?
      end;
    inversion He; subst p; try exact I; lia.
Qed.

Section WakeUps.
Variable ta : Int32Array.t.

Lemma step_no_lost_wakeup s a s' ev :
  asks_positive a -> sharing ta s -> Forall frame_waits (contexts s) ->
  no_lost_wakeup ta s -> do_action s a = Some (s', ev) ->
  sharing ta s' /\ Forall frame_waits (contexts s') /\ no_lost_wakeup ta s'.
Proof.
  intros Hp Hsh Hfw Hinv Hdo.
  pose proof Hsh as (Hv & Hl & Hall).
  destruct a as [i m num | i | i k]; cbn [do_action] in Hdo;
    destruct (contexts s !! i) as [c|] eqn:Hi; try discriminate;
    pose proof (sharing_lookup ta s i c Hsh Hi) as Hta;
    pose proof (Forall_lookup_1 _ _ _ _ Hfw Hi) as Hc.
  - destruct (is_idle (running c)) eqn:Hidle; try discriminate.
    destruct (running c) eqn:Hr; try discriminate.
    destruct (enter m num (this c)) as [e|p] eqn:He; injection Hdo as <- <-.
    + auto.
    + pose proof (initial_frame_waits m num (this c) p Hp He) as Hinit.
      unfold sharing, no_lost_wakeup, cell. cbn [heap contexts].
      split; [|split].
      * repeat split; auto. now apply Forall_insert.
      * apply Forall_insert; [exact Hfw|]. destruct Hc as (_ & Hs).
        split; [|exact Hs]. cbn [goto running]. destruct p; try exact I; try exact Hinit;
          contradiction.
      * destruct Hinv as [HE|HF].
        -- left. apply (Exists_insert_keep _ _ i c); auto.
           unfold releasing. now rewrite Hr.
        -- right. apply Forall_insert; [exact HF|].
           pose proof (Forall_lookup_1 _ _ _ _ HF Hi) as (_ & Hsus).
           split; [|exact Hsus]. cbn [goto running]. intros n Hn.
           destruct p; try discriminate; contradiction.
  - destruct (advance c (heap s)) as [[[c' h'] eff]|] eqn:Hadv; try discriminate.
    injection Hdo as <- <-.
    destruct (advance_same_cell ta c (heap s) c' h' eff Hta Hv Hadv) as (Hta' & Hv').
    pose proof (advance_frame_waits c (heap s) c' h' eff Hc Hadv) as Hc'.
    assert (Hall' : Forall (fun c => _int32Array (this c) = ta) (<[i := c']> (contexts s)))
      by now apply Forall_insert.
    assert (Hfw' : Forall frame_waits (<[i := c']> (contexts s)))
      by now apply Forall_insert.
    rewrite Hta.
    destruct (advance_waits ta c (heap s) c' h' eff Hta Hv Hl Hc Hadv)
      as [(Hrel & ->)|[(n & ->)|(Hnot & Hid & Hle & Hlacks)]].
    + cbn [delivered]. split; [repeat split; auto|]. split; [exact Hfw'|].
      left. cbn [contexts]. now apply (Exists_insert_new _ _ i c).
    + cbn [delivered]. split; [|split].
      * repeat split; auto. cbn [contexts]. apply Forall_fmap.
        eapply Forall_impl; [exact Hall'|]. intros x Hx. unfold compose.
        now rewrite handle_wake.
      * cbn [contexts]. apply Forall_fmap. eapply Forall_impl; [exact Hfw'|].
        intros x Hx. unfold compose. now apply frame_waits_wake.
      * right. cbn [contexts]. apply Forall_fmap.
        eapply Forall_impl; [exact Hall'|]. intros x Hx. unfold compose.
        now apply awake_lacks, awake_wake.
    + rewrite Hid. split; [repeat split; auto|]. split; [exact Hfw'|].
      unfold no_lost_wakeup, cell in *. cbn [heap contexts].
      destruct Hinv as [HE|HF].
      * left. now apply (Exists_insert_keep _ _ i c).
      * right. apply Forall_insert.
        -- eapply Forall_impl; [exact HF|]. intros x Hx. now apply (lacks_mono _ _ _ Hle).
        -- apply Hlacks. apply (Forall_lookup_1 _ _ _ _ HF Hi).
  - destruct (is_idle (running c)) eqn:Hidle; try discriminate.
    destruct (running c) eqn:Hr; try discriminate.
    destruct (suspended c !! k) as [[n [|]]|] eqn:Hk; try discriminate.
    injection Hdo as <- <-.
    unfold sharing, no_lost_wakeup, cell. cbn [heap contexts].
    destruct Hc as (_ & Hs).
    split; [|split].
    + repeat split; auto. now apply Forall_insert.
    + apply Forall_insert; [exact Hfw|]. split; cbn [running suspended].
      * apply (Forall_lookup_1 _ _ _ _ Hs Hk).
      * now apply Forall_delete.
    + destruct Hinv as [HE|HF].
      * left. apply (Exists_insert_keep _ _ i c); auto.
        unfold releasing. now rewrite Hr.
      * right. apply Forall_insert; [exact HF|].
        pose proof (Forall_lookup_1 _ _ _ _ HF Hi) as (_ & Hsus).
        split; cbn [running suspended]; [discriminate | now apply Forall_delete].
Qed.

Lemma run_no_lost_wakeup acts : forall s s' tr,
  Forall asks_positive acts -> sharing ta s -> Forall frame_waits (contexts s) ->
  no_lost_wakeup ta s -> run s acts = Some (s', tr) ->
  sharing ta s' /\ Forall frame_waits (contexts s') /\ no_lost_wakeup ta s'.
Proof.
  induction acts as [|a acts IH]; intros s s' tr Hp Hsh Hfw Hinv Hrun; cbn [run] in Hrun.
  - injection Hrun as <- <-. auto.
  - destruct (do_action s a) as [[s1 ev1]|] eqn:Hdo; try discriminate.
    destruct (run s1 acts) as [[s2 ev2]|] eqn:Hrest; try discriminate.
    injection Hrun as <- <-.
    inversion Hp as [|? ? Hpa Hpacts]; subst.
    destruct (step_no_lost_wakeup s a s1 ev1 Hpa Hsh Hfw Hinv Hdo) as (Hsh1 & Hfw1 & Hinv1).
    exact (IH s1 s2 ev2 Hpacts Hsh1 Hfw1 Hinv1 Hrest).
Qed.
End WakeUps.

(** X13.  No wake-up is lost.  Let the contexts share one cell and start
    with no call in progress and no pending promise.  Along every schedule
    whose [acquireAsync] calls have [num >= 1] ([acquire] and [release] with
    any argument), in every state reached either a [release] has changed
    the cell and has still to notify, or every caller asleep in
    [Atomics.wait] and every pending [Atomics.waitAsync] asks for more than
    the cell holds: nobody waits while the permits it asked for are there. *)
Theorem waiters_lack_permits ta s0 acts s tr :
  sharing ta s0 ->
  Forall (fun c => running c = Idle /\ suspended c = []) (contexts s0) ->
  Forall asks_positive acts -> run s0 acts = Some (s, tr) ->
  Exists releasing (contexts s) \/
  forall i c, contexts s !! i = Some c ->
    (forall num, running c = AcquireBlocked num ->
       availablePermits (heap s) (this c) < num) /\
    (forall num, In (mkSuspended num false) (suspended c) ->
       availablePermits (heap s) (this c) < num).
Proof.
  intros Hsh H0 Hp Hrun.
  assert (Hfw : Forall frame_waits (contexts s0)).
  { eapply Forall_impl; [exact H0|]. intros c (Hr & Hs). unfold frame_waits.
    rewrite Hr, Hs. split; [exact I | constructor]. }
  assert (Hinv : no_lost_wakeup ta s0).
  { right. eapply Forall_impl; [exact H0|]. intros c (Hr & Hs). unfold lacks.
    rewrite Hr, Hs. split; [discriminate | constructor]. }
  destruct (run_no_lost_wakeup ta acts s0 s tr Hp Hsh Hfw Hinv Hrun)
    as (Hsh' & _ & [HE|HF]); [left; exact HE | right].
  intros i c Hi. pose proof (Forall_lookup_1 _ _ _ _ HF Hi) as (Hb & Hsus).
  unfold availablePermits. rewrite (sharing_lookup ta s i c Hsh' Hi).
  split; [exact Hb|]. intros num Hin. rewrite Forall_forall in Hsus.
  apply (Hsus (mkSuspended num false)); [|reflexivity].
  now apply list_elem_of_In.
Qed.

Lemma waiters_lack_permits_witness :
  let sem := mkSemaphore 0 (Int32Array.mk 0 0 1) in
  let s := mkSystem [mkBuffer true (int32_bytes_le 0)]
             [mkContext sem (AcquireBlocked 1) []; mkContext sem Idle [mkSuspended 2 false]] in
  Exists releasing (contexts s) \/
  forall i c, contexts s !! i = Some c ->
    (forall num, running c = AcquireBlocked num ->
       availablePermits (heap s) (this c) < num) /\
    (forall num, In (mkSuspended num false) (suspended c) ->
       availablePermits (heap s) (this c) < num).
Proof.
  intros sem s.
  apply (waiters_lack_permits (Int32Array.mk 0 0 1) (one_cell 0 1)
           [Call 0 Acquire 1; Advance 0; Advance 0;
            Call 1 AcquireAsync 2; Advance 1; Advance 1] s []).
  - split; [|split; [cbn; lia | repeat constructor]].
    exists (mkBuffer true (int32_bytes_le 0)). split; [reflexivity | cbn; lia].
  - repeat constructor.
  - repeat constructor; cbn; lia.
  - vm_compute. reflexivity.
Defined.

Lemma total_two_le f (cs : list Context) : forall i j ci cj,
  Forall (fun c => 0 <= f c) cs -> i <> j ->
  cs !! i = Some ci -> cs !! j = Some cj -> f ci + f cj <= total f cs.
Proof.
  induction cs as [|x cs IH]; intros i j ci cj H Hne Hi Hj; [discriminate|].
  inversion H as [|? ? Hx Hcs]; subst.
  destruct i as [|i], j as [|j]; try congruence.
  - injection Hi as ->. change ((ci :: cs) !! S j) with (cs !! j) in Hj.
    pose proof (total_lookup_le f cs j cj Hcs Hj). unfold total in *. cbn [foldr]. lia.
  - injection Hj as ->. change ((cj :: cs) !! S i) with (cs !! i) in Hi.
    pose proof (total_lookup_le f cs i ci Hcs Hi). unfold total in *. cbn [foldr]. lia.
  - change ((x :: cs) !! S i) with (cs !! i) in Hi.
    change ((x :: cs) !! S j) with (cs !! j) in Hj.
    assert (i <> j) by congruence.
    pose proof (IH i j ci cj Hcs H0 Hi Hj). unfold total in *. cbn [foldr]. lia.
Qed.

Lemma total_idle cs :
  Forall (fun c => running c = Idle) cs ->
  total holdings cs = total (fun c => acquiredPermits (this c)) cs.
Proof.
  unfold total. induction 1 as [|c cs Hc H IH]; [reflexivity|].
  cbn [foldr]. rewrite IH. unfold holdings, acquiredPermits. rewrite Hc. lia.
Qed.

(** X14.  Never more permits out than the capacity.  Let [0 <= c <= 2^31 - 1],
    and take the system made by [fromCapacity(c)] and any number of further
    objects around the same buffer.  Along every schedule whose [release] and
    [acquireAsync] calls have [num >= 1], every object reads at most [c]
    available permits, an object between calls holds at most [c], and two
    different objects between calls hold at most [c] together (with [c = 1]:
    mutual exclusion). *)
Theorem permits_within_capacity c others acts :
  0 <= c <= INT32_MAX -> Forall polite acts ->
  exists s0, boot c others = Some s0 /\
    forall s tr, run s0 acts = Some (s, tr) ->
      forall i ci, contexts s !! i = Some ci ->
        availablePermits (heap s) (this ci) <= c /\
        (running ci = Idle ->
           acquiredPermits (this ci) <= c /\
           forall j cj, j <> i -> contexts s !! j = Some cj -> running cj = Idle ->
             acquiredPermits (this ci) + acquiredPermits (this cj) <= c).
Proof.
  intros Hc Hp. exists (one_cell c others). split; [apply boot_eq|].
  intros s tr Hrun i ci Hi.
  pose proof (boot_tidy c others _ Hc (boot_eq c others)) as Ht.
  pose proof (run_tidy _ _ acts _ _ _ Hp Ht Hrun) as (Hsh & Hok & Hcell & Hsum & _).
  assert (Hnn : Forall (fun x => 0 <= holdings x) (contexts s)).
  { eapply Forall_impl; [exact Hok|]. intros x Hx. apply Hx. }
  pose proof (total_nonneg holdings _ Hnn) as Htot.
  unfold availablePermits, acquiredPermits.
  rewrite (sharing_lookup _ s i ci Hsh Hi). fold (cell (Int32Array.mk 0 0 1) s).
  split; [lia|]. intros Hr.
  assert (Hh : forall x, running x = Idle -> holdings x = _acquiredPermits (this x)).
  { intros x Hx. unfold holdings. rewrite Hx. lia. }
  split.
  - pose proof (total_lookup_le holdings _ i ci Hnn Hi). rewrite (Hh ci Hr) in H. lia.
  - intros j cj Hne Hj Hrj.
    pose proof (total_two_le holdings _ j i cj ci Hnn Hne Hj Hi) as H.
    rewrite (Hh ci Hr), (Hh cj Hrj) in H. lia.
Qed.

Lemma permits_within_capacity_witness :
  exists s0, boot 1 1 = Some s0 /\
    forall s tr,
      run s0 [Call 0 Acquire 1; Advance 0; Advance 0; Advance 0;
              Call 1 Acquire 1; Advance 1; Advance 1] = Some (s, tr) ->
      forall i ci, contexts s !! i = Some ci ->
        availablePermits (heap s) (this ci) <= 1 /\
        (running ci = Idle ->
           acquiredPermits (this ci) <= 1 /\
           forall j cj, j <> i -> contexts s !! j = Some cj -> running cj = Idle ->
             acquiredPermits (this ci) + acquiredPermits (this cj) <= 1).
Proof.
  apply (permits_within_capacity 1 1).
  - unfold INT32_MAX. lia.
  - repeat constructor.
Defined.

(** X15.  The books balance.  Let [0 <= c <= 2^31 - 1], and take the system
    made by [fromCapacity(c)] and any number of further objects around the
    same buffer.  Along every schedule whose [release] and [acquireAsync]
    calls have [num >= 1], whenever no call is in progress the available
    permits read by any object plus the acquired permits of all objects
    make [c]: no permit is created and none is lost. *)
Theorem permits_add_up c others acts :
  0 <= c <= INT32_MAX -> Forall polite acts ->
  exists s0, boot c others = Some s0 /\
    forall s tr, run s0 acts = Some (s, tr) -> quiescent s ->
      Forall (fun ctx =>
                availablePermits (heap s) (this ctx)
                + total (fun x => acquiredPermits (this x)) (contexts s) = c)
             (contexts s).
Proof.
  intros Hc Hp. exists (one_cell c others). split; [apply boot_eq|].
  intros s tr Hrun Hq.
  pose proof (boot_tidy c others _ Hc (boot_eq c others)) as Ht.
  pose proof (run_tidy _ _ acts _ _ _ Hp Ht Hrun) as ((_ & _ & Hs) & _ & _ & Hsum & _).
  rewrite (total_idle _ Hq) in Hsum.
  eapply Forall_impl; [exact Hs|]. intros ctx Hctx. cbn beta in *.
  unfold availablePermits. rewrite Hctx. exact Hsum.
Qed.

Lemma permits_add_up_witness :
  exists s0, boot 3 1 = Some s0 /\
    forall s tr,
      run s0 [Call 0 Acquire 2; Advance 0; Advance 0; Advance 0;
              Call 1 AcquireAsync 1; Advance 1; Advance 1; Advance 1] = Some (s, tr) ->
      quiescent s ->
      Forall (fun ctx =>
                availablePermits (heap s) (this ctx)
                + total (fun x => acquiredPermits (this x)) (contexts s) = 3)
             (contexts s).
Proof.
  apply (permits_add_up 3 1).
  - unfold INT32_MAX. lia.
  - repeat constructor; cbn; lia.
Defined.

(** *** Semaphores around different buffers *)

Lemma byte_at_write_other h b i new b' o :
  b' <> b -> byte_at (write_bytes h b i new) b' o = byte_at h b' o.
Proof.
  intros Hne. unfold write_bytes, byte_at. destruct (h !! b) as [buf|]; [|reflexivity].
  rewrite list_lookup_insert_ne by congruence. reflexivity.
Qed.

Lemma get_set_element_other h ta idx v tb idx' :
  Int32Array.buffer ta <> Int32Array.buffer tb ->
  get_element (set_element h ta idx v) tb idx' = get_element h tb idx'.
Proof.
  intros Hne. unfold get_element, set_element.
  rewrite !byte_at_write_other by congruence. reflexivity.
Qed.

Lemma advance_elsewhere tb c h c' h' eff :
  Int32Array.buffer (_int32Array (this c)) <> Int32Array.buffer tb ->
  advance c h = Some (c', h', eff) ->
  _int32Array (this c') = _int32Array (this c) /\
  forall idx, get_element h' tb idx = get_element h tb idx.
Proof.
  intros Hne Hadv. unfold advance in Hadv.
  destruct (running c); try discriminate;
    unfold Atomics.compareExchange in Hadv;
    repeat match type of Hadv with
      | context [if ?b then _ else _] => destruct b
      end;
    injection Hadv as <- <- <-; split; try reflexivity; intros idx;
    now apply get_set_element_other.
Qed.

Lemma wake_elsewhere ta c :
  Int32Array.buffer ta <> Int32Array.buffer (_int32Array (this c)) -> wake ta c = c.
Proof.
  intros Hne. unfold wake, same_cell.
  destruct (Nat.eqb_spec (Int32Array.buffer ta) (Int32Array.buffer (_int32Array (this c))));
    [contradiction | reflexivity].
Qed.

Lemma lookup_insert_view (cs : list Context) i c c' k c1 :
  cs !! i = Some c -> _int32Array (this c') = _int32Array (this c) ->
  <[i := c']> cs !! k = Some c1 ->
  exists c0, cs !! k = Some c0 /\ _int32Array (this c0) = _int32Array (this c1).
Proof.
  intros Hi Hv Hk. destruct (decide (k = i)) as [->|Hne].
  - rewrite (lookup_put cs i c c' Hi) in Hk. injection Hk as <-. eauto.
  - rewrite list_lookup_insert_ne in Hk by congruence. eauto.
Qed.

Lemma step_elsewhere tb s a s' ev :
  elsewhere tb s a -> do_action s a = Some (s', ev) ->
  (forall idx, get_element (heap s') tb idx = get_element (heap s) tb idx) /\
  (forall j cj, contexts s !! j = Some cj -> _int32Array (this cj) = tb ->
     contexts s' !! j = Some cj) /\
  (forall k c1, contexts s' !! k = Some c1 ->
     exists c0, contexts s !! k = Some c0 /\ _int32Array (this c0) = _int32Array (this c1)).
Proof.
  intros Hel Hdo. unfold elsewhere in Hel.
  destruct a as [i m num | i | i k]; cbn [do_action actor] in Hdo, Hel;
    destruct (contexts s !! i) as [c|] eqn:Hi; try discriminate;
    specialize (Hel c eq_refl).
  - destruct (is_idle (running c)); try discriminate.
    destruct (enter m num (this c)) as [e|p]; injection Hdo as <- <-.
    + split; [reflexivity|]. split; eauto.
    + cbn [heap contexts]. split; [reflexivity|]. split.
      * intros j cj Hj Hv. rewrite list_lookup_insert_ne; [exact Hj|].
        intros ->. rewrite Hi in Hj. injection Hj as ->. now rewrite Hv in Hel.
      * intros k c1. now apply (lookup_insert_view _ i c).
  - destruct (advance c (heap s)) as [[[c' h'] eff]|] eqn:Hadv; try discriminate.
    injection Hdo as <- <-. cbn [heap contexts].
    destruct (advance_elsewhere tb c (heap s) c' h' eff Hel Hadv) as (Hv' & Hh).
    split; [exact Hh|]. split.
    + intros j cj Hj Hv.
      assert (Hne : i <> j).
      { intros ->. rewrite Hi in Hj. injection Hj as ->. now rewrite Hv in Hel. }
      assert (Hj' : <[i := c']> (contexts s) !! j = Some cj)
        by now rewrite list_lookup_insert_ne.
      destruct eff; cbn [delivered]; try exact Hj'.
      rewrite list_lookup_fmap, Hj'. cbn. f_equal. apply wake_elsewhere.
      now rewrite Hv.
    + intros k c1 Hk.
      assert (Hk' : exists c2, <[i := c']> (contexts s) !! k = Some c2 /\
                      _int32Array (this c2) = _int32Array (this c1)).
      { destruct eff; cbn [delivered] in Hk; eauto.
        rewrite list_lookup_fmap in Hk.
        destruct (<[i := c']> (contexts s) !! k) as [c2|]; [|discriminate].
        injection Hk as <-. exists c2. split; [reflexivity|]. now rewrite handle_wake. }
      destruct Hk' as (c2 & Hc2 & E). rewrite <- E.
      now apply (lookup_insert_view _ i c c').
  - destruct (is_idle (running c)); try discriminate.
    destruct (suspended c !! k) as [[n [|]]|]; try discriminate.
    injection Hdo as <- <-. cbn [heap contexts]. split; [reflexivity|]. split.
    + intros j cj Hj Hv. rewrite list_lookup_insert_ne; [exact Hj|].
      intros ->. rewrite Hi in Hj. injection Hj as ->. now rewrite Hv in Hel.
    + intros k' c1. now apply (lookup_insert_view _ i c).
Qed.

(** X16.  Semaphores around different buffers do not disturb each other.
    Along every schedule in which only objects around other buffers than
    the one of the view [tb] take steps (calls, the steps of their calls,
    their notifications), an object around [tb] reads the same
    [availablePermits], and every context whose object is around [tb] stays
    exactly as it was: its count, its sleeping [acquire] and its pending
    promises. *)
Theorem other_buffer_undisturbed tb acts : forall s s' tr,
  Forall (elsewhere tb s) acts -> run s acts = Some (s', tr) ->
  (forall sem, _int32Array sem = tb ->
     availablePermits (heap s') sem = availablePermits (heap s) sem) /\
  (forall j cj, contexts s !! j = Some cj -> _int32Array (this cj) = tb ->
     contexts s' !! j = Some cj).
Proof.
  assert (G : forall s s' tr,
    Forall (elsewhere tb s) acts -> run s acts = Some (s', tr) ->
    (forall idx, get_element (heap s') tb idx = get_element (heap s) tb idx) /\
    (forall j cj, contexts s !! j = Some cj -> _int32Array (this cj) = tb ->
       contexts s' !! j = Some cj)).
  { induction acts as [|a acts IH]; intros s s' tr Hel Hrun; cbn [run] in Hrun.
    - injection Hrun as <- <-. auto.
    - destruct (do_action s a) as [[s1 ev1]|] eqn:Hdo; try discriminate.
      destruct (run s1 acts) as [[s2 ev2]|] eqn:Hrest; try discriminate.
      injection Hrun as <- <-.
      inversion Hel as [|? ? Ha Hacts]; subst.
      destruct (step_elsewhere tb s a s1 ev1 Ha Hdo) as (Hh & Hc & Hv).
      assert (Hel1 : Forall (elsewhere tb s1) acts).
      { eapply Forall_impl; [exact Hacts|]. intros x Hx c1 Hc1.
        destruct (Hv _ _ Hc1) as (c0 & Hc0 & E). rewrite <- E. now apply Hx. }
      destruct (IH s1 s2 ev2 Hel1 Hrest) as (Hh2 & Hc2). split.
      + intros idx. now rewrite Hh2.
      + intros j cj Hj Hvj. apply Hc2; [|exact Hvj]. now apply Hc. }
  intros s s' tr Hel Hrun. destruct (G s s' tr Hel Hrun) as (Hh & Hc).
  split; [|exact Hc]. intros sem <-. unfold availablePermits, Atomics.load. apply Hh.
Qed.

Lemma other_buffer_undisturbed_witness :
  let tb := Int32Array.mk 1 0 1 in
  let waiting := mkContext (mkSemaphore 0 tb) (AcquireBlocked 1) [mkSuspended 1 false] in
  let s := mkSystem [mkBuffer true (int32_bytes_le 1); mkBuffer true (int32_bytes_le 0)]
             [fresh (mkSemaphore 0 (Int32Array.mk 0 0 1)); waiting] in
  let s' := mkSystem [mkBuffer true (int32_bytes_le 1); mkBuffer true (int32_bytes_le 0)]
             [fresh (mkSemaphore 0 (Int32Array.mk 0 0 1)); waiting] in
  (forall sem, _int32Array sem = tb ->
     availablePermits (heap s') sem = availablePermits (heap s) sem) /\
  (forall j cj, contexts s !! j = Some cj -> _int32Array (this cj) = tb ->
     contexts s' !! j = Some cj).
Proof.
  intros tb waiting s s'.
  apply (other_buffer_undisturbed tb
           [Call 0 Acquire 1; Advance 0; Advance 0; Advance 0;
            Call 0 Release 1; Advance 0; Advance 0; Advance 0; Advance 0]
           s s' [Returned 0 Acquire 1; Returned 0 Release 1]).
  - repeat constructor; intros c [= <-]; cbn; lia.
  - vm_compute. reflexivity.
Defined.

(** *** Instances of the accounting lemmas *)

Lemma acquiredPermits_accounting_witness :
  acquiredPermits (mkSemaphore 1 (Int32Array.mk 0 0 1))
  = net_of 0 [Returned 0 Acquire 2; Returned 1 Acquire 1; Returned 0 Release 1].
Proof.
  apply (acquiredPermits_accounting 3 1
           [Call 0 Acquire 2; Advance 0; Advance 0; Advance 0;
            Call 1 Acquire 1; Advance 1; Advance 1; Advance 1;
            Call 0 Release 1; Advance 0; Advance 0; Advance 0; Advance 0]
           (mkSystem [mkBuffer true (int32_bytes_le 1)]
              [mkContext (mkSemaphore 1 (Int32Array.mk 0 0 1)) Idle [];
               mkContext (mkSemaphore 1 (Int32Array.mk 0 0 1)) Idle []])
           [Returned 0 Acquire 2; Returned 1 Acquire 1; Returned 0 Release 1] 0
           (mkContext (mkSemaphore 1 (Int32Array.mk 0 0 1)) Idle [])).
  - unfold INT32_MAX. lia.
  - repeat constructor; cbn; lia.
  - vm_compute. reflexivity.
  - reflexivity.
  - reflexivity.
Defined.

Lemma acquiredPermits_nonneg_polite_witness :
  0 <= acquiredPermits (mkSemaphore 1 (Int32Array.mk 0 0 1)).
Proof.
  apply (acquiredPermits_nonneg_polite 3 0
           [Call 0 Acquire 2; Advance 0; Advance 0; Advance 0;
            Call 0 Release 1; Advance 0; Advance 0; Advance 0; Advance 0]
           (mkSystem [mkBuffer true (int32_bytes_le 2)]
              [mkContext (mkSemaphore 1 (Int32Array.mk 0 0 1)) Idle []])
           [Returned 0 Acquire 2; Returned 0 Release 1] 0
           (mkContext (mkSemaphore 1 (Int32Array.mk 0 0 1)) Idle [])).
  - unfold INT32_MAX. lia.
  - repeat constructor; cbn; lia.
  - vm_compute. reflexivity.
  - reflexivity.
  - reflexivity.
Defined.

Lemma conservation_witness :
  cell (Int32Array.mk 0 0 1)
    (mkSystem [mkBuffer true (int32_bytes_le 2)]
       [mkContext (mkSemaphore 1 (Int32Array.mk 0 0 1)) Idle []])
  = 3 - net [Returned 0 Acquire 2; Returned 0 Release 1].
Proof.
  apply (conservation 3 0
           [Call 0 Acquire 2; Advance 0; Advance 0; Advance 0;
            Call 0 Release 1; Advance 0; Advance 0; Advance 0; Advance 0]
           (mkSystem [mkBuffer true (int32_bytes_le 2)]
              [mkContext (mkSemaphore 1 (Int32Array.mk 0 0 1)) Idle []])
           [Returned 0 Acquire 2; Returned 0 Release 1]).
  - unfold INT32_MAX. lia.
  - repeat constructor; cbn; lia.
  - vm_compute. reflexivity.
  - repeat constructor.
Defined.
